(** * nipy.algorithms.statistics.formula.formulae

    A shallow embedding of the formula algebra of
    [nipy/algorithms/statistics/formula/formulae.py]: terms and factor
    terms, [Formula] and [Factor] objects with their lazily filled
    attributes, the set-up and input validation of [Formula.design], and
    [contrast_from_cols_or_rows].

    Python objects are records, exceptions are the [Raise] branch of
    [result], attribute mutation is explicit state passing.  SymPy is not
    part of the repository: its expression trees are the inductive type
    [expr], and the operations that build or rewrite expressions
    ([Expr.__add__], [diff], [subs], ...) are the fields of a record
    [SymPy] over which every definition is parametrised.  NumPy's floating
    point matrices are matrices over an arbitrary field. *)

From Stdlib Require Import String Ascii ZArith QArith Qround Lia DecimalString.
From Stdlib Require DecimalZ DecimalPos.
From HB Require Import structures.
From mathcomp Require Import boot algebra.

Set Implicit Arguments.
Unset Strict Implicit.
Unset Printing Implicit Defensive.

Delimit Scope Z_scope with Z.
Delimit Scope Q_scope with Q.
Close Scope Q_scope.

Local Open Scope string_scope.
Local Open Scope seq_scope.

(** ** Python exceptions and results *)

Inductive exception : Type :=
| ValueError (msg : string)
| AttributeError (msg : string)
| IndexError (msg : string)
| KeyError (msg : string).

Inductive result (A : Type) : Type :=
| Ok (a : A)
| Raise (e : exception).

Arguments Ok {A} a.
Arguments Raise {A} e.

Definition rbind {A B} (r : result A) (k : A -> result B) : result B :=
  match r with
  | Ok a => k a
  | Raise e => Raise e
  end.

Notation "x <- r ;; k" := (rbind r (fun x => k))
  (at level 100, r at next level, right associativity).

HB.instance Definition _ := hasDecEq.Build string String.eqb_spec.

(** Decimal rendering of an integer, as ["%d" % z] and [str(z)] give it. *)
Definition str_of_Z (z : Z) : string := NilZero.string_of_int (Z.to_int z).

Definition str_of_nat (n : nat) : string := str_of_Z (Z.of_nat n).

(** ** SymPy expressions

    [Term] and [FactorTerm] are the two subclasses of [sympy.Symbol] the
    module declares; [Beta] is its subclass of [sympy.Dummy].  A
    [FactorTerm] keeps the two attributes its [__new__] stores,
    [factor_name] and [level]; its symbol name is derived from them. *)

Inductive level : Type :=
| LInt (z : Z)          (* an element of an integer array *)
| LStr (s : string).    (* an element of a unicode array *)

(** [_to_str(s)]: [str(s)] for anything that is not a byte string. *)
Definition _to_str (l : level) : string :=
  match l with
  | LInt z => str_of_Z z
  | LStr s => s
  end.

Inductive expr : Type :=
| Number (z : Z)                              (* sympy.Integer *)
| Float (q : Q)                               (* sympy.Float *)
| Symbol (name : string)                      (* sympy.Symbol *)
| Dummy (name : string) (dummy_index : nat)   (* sympy.Dummy *)
| Beta (name : string) (dummy_index : nat)    (* class Beta(sympy.Dummy) *)
| Term (name : string)                        (* class Term(sympy.Symbol) *)
| FactorTerm (factor_name : string) (lvl : level)   (* class FactorTerm(Term) *)
| Add (a b : expr)
| Mul (a b : expr)
| Pow (a b : expr)
| Func (fname : string) (arg : expr).         (* an applied function *)

(** The name [FactorTerm.__new__] passes to [Term.__new__]:
    [f"{_to_str(name)}_{_to_str(level)}"]. *)
Definition FactorTerm_name (factor_name : string) (lvl : level) : string :=
  factor_name ++ "_" ++ _to_str lvl.

(** [hasattr(obj, "_term_flag")] *)
Definition is_term (obj : expr) : bool :=
  match obj with
  | Term _ | FactorTerm _ _ => true
  | _ => false
  end.

(** [hasattr(obj, "_factor_term_flag")] *)
Definition is_factor_term (obj : expr) : bool :=
  match obj with
  | FactorTerm _ _ => true
  | _ => false
  end.

(** [isinstance(atom, sympy.Symbol)] *)
Definition is_Symbol (atom : expr) : bool :=
  match atom with
  | Symbol _ | Dummy _ _ | Beta _ _ | Term _ | FactorTerm _ _ => true
  | _ => false
  end.

(** SymPy's [==]: same class and same hashable content.  For a symbol the
    content is its name (and the [dummy_index] of a [Dummy]), so two
    factor terms are equal when their derived names are. *)
Fixpoint expr_eqb (x y : expr) : bool :=
  match x, y with
  | Number a, Number b => Z.eqb a b
  | Float a, Float b => Qeq_bool a b
  | Symbol a, Symbol b => a == b
  | Dummy a i, Dummy b j => (a == b) && (i == j)
  | Beta a i, Beta b j => (a == b) && (i == j)
  | Term a, Term b => a == b
  | FactorTerm f l, FactorTerm g m => FactorTerm_name f l == FactorTerm_name g m
  | Add a b, Add c d => expr_eqb a c && expr_eqb b d
  | Mul a b, Mul c d => expr_eqb a c && expr_eqb b d
  | Pow a b, Pow c d => expr_eqb a c && expr_eqb b d
  | Func f a, Func g b => (f == g) && expr_eqb a b
  | _, _ => false
  end.

(** [e.atoms()]: the leaves of the expression tree. *)
Fixpoint atoms (e : expr) : seq expr :=
  match e with
  | Add a b | Mul a b | Pow a b => atoms a ++ atoms b
  | Func _ a => atoms a
  | _ => [:: e]
  end.

(** [str(s)] of a symbol: its name, a dummy's behind an underscore. *)
Definition str_of_symbol (s : expr) : string :=
  match s with
  | Symbol n | Term n => n
  | Dummy n _ | Beta n _ => "_" ++ n
  | FactorTerm f l => FactorTerm_name f l
  | Number z => str_of_Z z
  | _ => ""
  end.

(** A Python [set] of expressions, and [x in s]: hashing agrees with
    [==], so membership is [==] against some element. *)
Definition py_in (x : expr) (s : seq expr) : bool := has (expr_eqb x) s.

Fixpoint py_set (s : seq expr) : seq expr :=
  match s with
  | [::] => [::]
  | x :: s' => if py_in x s' then py_set s' else x :: py_set s'
  end.

(** [default_sort_key] on atoms: the class name, then the name, then the
    dummy index. *)
Definition class_name (e : expr) : string :=
  match e with
  | Number _ => "Integer"
  | Float _ => "Float"
  | Symbol _ => "Symbol"
  | Dummy _ _ => "Dummy"
  | Beta _ _ => "Beta"
  | Term _ => "Term"
  | FactorTerm _ _ => "FactorTerm"
  | Add _ _ => "Add"
  | Mul _ _ => "Mul"
  | Pow _ _ => "Pow"
  | Func f _ => f
  end.

Definition dummy_index_of (e : expr) : nat :=
  match e with
  | Dummy _ i | Beta _ i => i
  | _ => 0
  end.

Definition sort_key_le (x y : expr) : bool :=
  if class_name x != class_name y then String.leb (class_name x) (class_name y)
  else if str_of_symbol x != str_of_symbol y
       then String.leb (str_of_symbol x) (str_of_symbol y)
       else dummy_index_of x <= dummy_index_of y.

(** The operations of SymPy the module calls.  They are SymPy's, not the
    repository's, and are taken as parameters. *)
Record SymPy : Type := MkSymPy {
  sym_add : expr -> expr -> expr;           (* sympy.Symbol.__add__ *)
  sym_sub : expr -> expr -> expr;           (* Expr.__sub__ *)
  sym_mul : expr -> expr -> expr;           (* sympy.Symbol.__mul__ *)
  sym_diff : expr -> expr -> expr;          (* sympy.diff(e, p).doit() *)
  sym_subs : expr -> expr -> expr -> expr   (* e.subs(old, new) *)
}.

(** What the development uses of SymPy's automatic evaluation. *)
Record SymPyLaws (E : SymPy) : Prop := MkSymPyLaws {
  mul_one : forall e, sym_mul E e (Number 1) = e;
  diff_self : forall s, is_Symbol s -> sym_diff E s s = Number 1
}.

(** ** Term and FactorTerm *)

Section Terms.

Variable E : SymPy.

(** [Term.__add__] *)
Definition Term___add__ (self other : expr) : expr :=
  if expr_eqb self other then self
  else sym_add E self other.

(** [FactorTerm.__mul__] *)
Definition FactorTerm___mul__ (self other : expr) : expr :=
  if expr_eqb self other then self
  else sym_mul E self other.

(** Python's [a + b], [a * b] and [a - b] on expressions: the method of
    the left operand's class.  [FactorTerm] inherits [Term.__add__];
    neither class overrides [__sub__]. *)
Definition py_add (a b : expr) : expr :=
  if is_term a then Term___add__ a b else sym_add E a b.

Definition py_mul (a b : expr) : expr :=
  if is_factor_term a then FactorTerm___mul__ a b else sym_mul E a b.

Definition py_sub (a b : expr) : expr := sym_sub E a b.

End Terms.

(** ** NumPy values the module handles *)

(** What [np.sum] or an element of an array can be: a SymPy expression,
    or a [numpy.float64] (the sum of an empty [float64] array). *)
Inductive pyval : Type :=
| PyExpr (e : expr)
| NpFloat64 (q : Q).

(** [sympy.sympify] *)
Definition sympify (v : pyval) : expr :=
  match v with
  | PyExpr e => e
  | NpFloat64 q => Float q
  end.

(** A float array in row-major order. *)
Record ndarray : Type := MkNdarray { shape : seq nat; data : seq Q }.

(** [np.ones(n, np.float64)] *)
Definition np_ones (n : nat) : ndarray :=
  {| shape := [:: n]; data := nseq n 1%Q |}.

(** A structured array with one row per observation: [dtype.names] and
    the rows; a cell is a number or a string. *)
Inductive cell : Type :=
| CNum (q : Q)
| CStr (s : string).

Record recarray : Type := MkRecarray {
  dtype_names : seq string;
  rows : seq (seq cell)
}.

(** [np.dtype([(n, np.float64) for n in names])]: field names may not
    repeat. *)
Definition np_dtype (names : seq string) : result (seq string) :=
  if uniq names then Ok names
  else Raise (ValueError "field occurs more than once").

(** [set(have).issuperset(want)] *)
Definition issuperset (have want : seq string) : bool :=
  all (fun n => n \in have) want.

(** ** Formula objects *)

(** The callable [lambdify(args, exprs, "numpy")] returns, kept as the
    argument list and the expressions it evaluates. *)
Record lambda : Type := lambdify { lam_args : seq expr; lam_exprs : seq expr }.

(** [self._dtypes]: the field names of the three structured dtypes. *)
Record dtypes : Type := MkDtypes {
  dt_param : seq string;
  dt_term : seq string;
  dt_preterm : seq string
}.

(** The attributes of a [Formula] instance.  [_coefs], [_f], [_dtypes]
    and [__terms] do not exist until they are first assigned. *)
Record Formula : Type := MkFormula {
  _terms : seq expr;
  _counter : nat;
  char : string;
  _coefs : option (seq (expr * expr));
  _f : option lambda;
  _dtypes : option dtypes;
  __terms : option (seq expr)
}.

(** [Formula.__init__] *)
Definition Formula___init__ (seq_ : seq expr) (char_ : string) : Formula :=
  {| _terms := seq_; _counter := 0; char := char_;
     _coefs := None; _f := None; _dtypes := None; __terms := None |}.

(** [Formula._getterms] ([Rmode] is the constant [False]). *)
Definition terms (self : Formula) : seq expr := _terms self.

(** An operand of a formula operator: a formula or something else. *)
Inductive pyobj : Type :=
| ObjFormula (f : Formula)
| ObjExpr (e : expr).

(** [hasattr(obj, "_formula_flag")] *)
Definition is_formula (obj : pyobj) : bool :=
  match obj with
  | ObjFormula _ => true
  | ObjExpr _ => false
  end.

(** [Formula.__add__] *)
Definition Formula___add__ (self : Formula) (other : pyobj) : result Formula :=
  match other with
  | ObjFormula other =>
      Ok (Formula___init__ (terms self ++ terms other) "b")
  | ObjExpr _ =>
      Raise (ValueError "only Formula objects can be added to a Formula")
  end.

(** [Formula.__sub__] *)
Definition Formula___sub__ (self : Formula) (other : pyobj) : result Formula :=
  match other with
  | ObjFormula other =>
      let unwanted := py_set (terms other) in
      let d := [seq term <- terms self | ~~ py_in term unwanted] in
      Ok (Formula___init__ d "b")
  | ObjExpr _ =>
      Raise (ValueError "only Formula objects can be subtracted from a Formula")
  end.

(** [np.array(f)] of a formula is [f.terms], a one-dimensional array. *)
Definition np_array (f : Formula) : seq expr := terms f.

Definition np_shape (a : seq expr) : seq nat := [:: size a].

(** [np.equal(s, o)] on two arrays of one shape, and [np.all]. *)
Definition np_equal (s o : seq expr) : seq bool :=
  [seq expr_eqb so.1 so.2 | so <- zip s o].

Definition np_all (bs : seq bool) : bool := all id bs.

(** [Formula.__eq__] *)
Definition Formula___eq__ (self other : Formula) : bool :=
  let s := np_array self in
  let o := np_array other in
  if np_shape s != np_shape o then false
  else np_all (np_equal (np_array self) (np_array other)).

(** ** Factor *)

(** A NumPy [float64]: a finite value, an infinity or NaN. *)
Inductive float64 : Type :=
| Finite (q : Q)
| Inf (negative : bool)
| NaN.

(** [np.asarray(levels)]: a one-dimensional array of one of four kinds,
    or the zero-dimensional array of a bare [str]. *)
Inductive levels_array : Type :=
| ArrI (xs : seq Z)          (* dtype.kind 'i' *)
| ArrF (xs : seq float64)    (* dtype.kind 'f' *)
| ArrU (xs : seq string)     (* dtype.kind 'U' *)
| ArrS (xs : seq string)     (* dtype.kind 'S' *)
| ArrU0 (s : string).        (* ndim == 0, dtype.kind 'U' *)

Definition ndim (a : levels_array) : nat :=
  match a with
  | ArrU0 _ => 0
  | _ => 1
  end.

(** [levelsarr.dtype.kind in 'SOU'] *)
Definition kind_in_SOU (a : levels_array) : bool :=
  match a with
  | ArrU _ | ArrS _ | ArrU0 _ => true
  | ArrI _ | ArrF _ => false
  end.

(** [list(s)] of a [str]: its characters. *)
Fixpoint list_of_str (s : string) : seq string :=
  match s with
  | EmptyString => [::]
  | String c s' => String c EmptyString :: list_of_str s'
  end.

(** Rounding of a finite value to the nearest integer, halves to the
    even one. *)
Definition round_half_even (x : Q) : Z :=
  let f := Qfloor x in
  let r := (x - inject_Z f)%Q in
  match (r ?= 1 # 2)%Q with
  | Lt => f
  | Gt => (f + 1)%Z
  | Eq => if Z.even f then f else (f + 1)%Z
  end.

(** [np.round] on a float: an infinity and NaN are returned as they
    are. *)
Definition np_round (x : float64) : float64 :=
  match x with
  | Finite q => Finite (inject_Z (round_half_even q))
  | _ => x
  end.

(** [np.equal] on two floats: NaN equals nothing, itself included. *)
Definition float_eqb (a b : float64) : bool :=
  match a, b with
  | Finite x, Finite y => Qeq_bool x y
  | Inf s, Inf t => s == t
  | _, _ => false
  end.

(** The range of [np.int_], an integer of 64 bits. *)
Definition int_min : Z := (- 2 ^ 63)%Z.

Definition int_max : Z := (2 ^ 63 - 1)%Z.

(** The integer part of a finite value. *)
Definition int_part (q : Q) : Z := Z.quot (Qnum q) (Z.pos (Qden q)).

(** [x.astype(np.int_)] on a float: the fraction is dropped.  C leaves
    the conversion undefined for a value whose integer part [np.int_]
    cannot hold, for an infinity and for NaN; NumPy on x86-64 then
    returns the least integer. *)
Definition astype_int (x : float64) : Z :=
  match x with
  | Finite q =>
      if (int_min <=? int_part q)%Z && (int_part q <=? int_max)%Z then int_part q
      else int_min
  | _ => int_min
  end.

(** [np.all(np.equal(levelsarr, np.round(levelsarr)))] *)
Definition all_integral (a : levels_array) : bool :=
  match a with
  | ArrF xs => all (fun x => float_eqb x (np_round x)) xs
  | _ => true
  end.

(** [np.asarray(list(levels))] for a bare [str]: the array of its
    characters. *)
Definition np_asarray_list (a : levels_array) : levels_array :=
  match a with
  | ArrU0 s => ArrU (list_of_str s)
  | _ => a
  end.

(** The elements of [levelsarr] after the cast [Factor.__init__] applies
    to it: [astype(np.int_)] to a numeric array, [astype('U')] to an
    array of byte strings, none to a unicode array. *)
Definition cast_levels (a : levels_array) : seq level :=
  match a with
  | ArrI xs => [seq LInt x | x <- xs]
  | ArrF xs => [seq LInt (astype_int x) | x <- xs]
  | ArrU xs | ArrS xs => [seq LStr x | x <- xs]
  | ArrU0 s => [seq LStr c | c <- list_of_str s]
  end.

(** A [Factor] instance: the attributes of its [Formula] base and the two
    [Factor.__init__] adds. *)
Record Factor : Type := MkFactor {
  formula_of :> Formula;
  levels : seq level;
  name : string
}.

(** [Factor.__init__] *)
Definition Factor___init__ (name_ : string) (levels_ : levels_array)
    (char_ : string) : result Factor :=
  let levelsarr := levels_ in
  let levelsarr :=
    if (ndim levelsarr == 0) && kind_in_SOU levelsarr
    then np_asarray_list levelsarr else levelsarr in
  if ~~ kind_in_SOU levelsarr && ~~ all_integral levelsarr then
    Raise (ValueError "levels must be strings or ints")
  else
    let levelsarr := cast_levels levelsarr in
    Ok {| formula_of :=
            Formula___init__ [seq FactorTerm name_ l | l <- levelsarr] char_;
          levels := levelsarr;
          name := name_ |}.

(** Python's [v[i]] on a list of length [n]: the position [i] names,
    counted from the end when negative. *)
Definition py_index (n : nat) (i : Z) : option nat :=
  if ((0 <=? i) && (i <? Z.of_nat n))%Z then Some (Z.to_nat i)
  else if ((i <? 0) && (- Z.of_nat n <=? i))%Z then Some (Z.to_nat (Z.of_nat n + i))
  else None.

(** [v[i]] *)
Definition py_getitem (v : seq expr) (i : Z) : result expr :=
  match py_index (size v) i with
  | Some k => Ok (nth (Number 0) v k)
  | None => Raise (IndexError "list index out of range")
  end.

(** [v.pop(i)], as the list left behind. *)
Definition py_pop (v : seq expr) (i : Z) : result (seq expr) :=
  match py_index (size v) i with
  | Some k => Ok (take k v ++ drop k.+1 v)
  | None => Raise (IndexError "pop index out of range")
  end.

Section FactorViews.

Variable E : SymPy.

(** [Factor._getmaineffect] *)
Definition _getmaineffect (self : Factor) (ref : Z) : result Formula :=
  let v := _terms self in
  ref_term <- py_getitem v ref ;;
  v <- py_pop v ref ;;
  Ok (Formula___init__ [seq py_sub E vv ref_term | vv <- v] "b").

(** The property [main_effect]: the getter with its default [ref=-1]. *)
Definition main_effect (self : Factor) : result Formula :=
  _getmaineffect self (-1)%Z.

End FactorViews.

(** ** The lazily computed attributes and [Formula.design]

    The state a method runs in: the instance it is called on, and the two
    global counters it can advance, SymPy's count of dummies (the
    [dummy_index] of the next [Dummy]) and the number of integers drawn
    from NumPy's random generator. *)

Record world : Type := MkWorld { dummy_count : nat; rand_draws : nat }.

Definition state : Type := (Formula * world)%type.

Definition M (A : Type) : Type := state -> result A * state.

Definition ret {A} (a : A) : M A := fun s => (Ok a, s).

Definition raise {A} (e : exception) : M A := fun s => (Raise e, s).

Definition bind {A B} (m : M A) (k : A -> M B) : M B :=
  fun s =>
    let: (r, s') := m s in
    match r with
    | Ok a => k a s'
    | Raise e => (Raise e, s')
    end.

Notation "x <~ m ;; k" := (bind m (fun x => k))
  (at level 100, m at next level, right associativity).
Notation "m ;;; k" := (bind m (fun _ => k))
  (at level 100, right associativity).

Definition liftR {A} (r : result A) : M A := fun s => (r, s).

Definition get_self : M Formula := fun s => (Ok s.1, s).

Definition modify_self (f : Formula -> Formula) : M unit :=
  fun s => (Ok tt, (f s.1, s.2)).

Fixpoint mapM {A B} (f : A -> M B) (xs : seq A) : M (seq B) :=
  match xs with
  | [::] => ret [::]
  | x :: xs' => y <~ f x ;; ys <~ mapM f xs' ;; ret (y :: ys)
  end.

(** Attribute assignments. *)
Definition set__coefs (v : seq (expr * expr)) (self : Formula) : Formula :=
  {| _terms := _terms self; _counter := _counter self; char := char self;
     _coefs := Some v; _f := _f self; _dtypes := _dtypes self;
     __terms := __terms self |}.

Definition set__counter (v : nat) (self : Formula) : Formula :=
  {| _terms := _terms self; _counter := v; char := char self;
     _coefs := _coefs self; _f := _f self; _dtypes := _dtypes self;
     __terms := __terms self |}.

Definition set__f (v : lambda) (self : Formula) : Formula :=
  {| _terms := _terms self; _counter := _counter self; char := char self;
     _coefs := _coefs self; _f := Some v; _dtypes := _dtypes self;
     __terms := __terms self |}.

Definition set__dtypes (v : dtypes) (self : Formula) : Formula :=
  {| _terms := _terms self; _counter := _counter self; char := char self;
     _coefs := _coefs self; _f := _f self; _dtypes := Some v;
     __terms := __terms self |}.

Definition set___terms (v : seq expr) (self : Formula) : Formula :=
  {| _terms := _terms self; _counter := _counter self; char := char self;
     _coefs := _coefs self; _f := _f self; _dtypes := _dtypes self;
     __terms := Some v |}.

(** A Python [dict] keyed by expressions, in insertion order. *)
Fixpoint dict_get (d : seq (expr * expr)) (k : expr) : option expr :=
  match d with
  | [::] => None
  | (k', v) :: d' => if expr_eqb k k' then Some v else dict_get d' k
  end.

(** [d.setdefault(k, v)], as the dictionary left behind. *)
Definition setdefault (d : seq (expr * expr)) (k v : expr) : seq (expr * expr) :=
  if dict_get d k is Some _ then d else rcons d (k, v).

(** [Beta(name, term)] and [Dummy(name)]: a dummy with the next index. *)
Definition new_Beta (name_ : string) : M expr :=
  fun s => (Ok (Beta name_ (dummy_count s.2)),
            (s.1, {| dummy_count := (dummy_count s.2).+1;
                     rand_draws := rand_draws s.2 |})).

Definition new_Dummy (name_ : string) : M expr :=
  fun s => (Ok (Dummy name_ (dummy_count s.2)),
            (s.1, {| dummy_count := (dummy_count s.2).+1;
                     rand_draws := rand_draws s.2 |})).

(** [getparams] on the array [np.array(expression)] flattened. *)
Definition getparams (expression : seq pyval) : seq expr :=
  let atoms_ := py_set (flatten [seq atoms (sympify term) | term <- expression]) in
  let params := [seq atom <- atoms_ | is_Symbol atom && ~~ is_term atom] in
  sort sort_key_le params.

(** [e.atoms()] on an element of the array. *)
Definition atoms_of (e : pyval) : result (seq expr) :=
  match e with
  | PyExpr e => Ok (atoms e)
  | NpFloat64 _ =>
      Raise (AttributeError "'numpy.float64' object has no attribute 'atoms'")
  end.

Fixpoint all_atoms (expression : seq pyval) : result (seq expr) :=
  match expression with
  | [::] => Ok [::]
  | e :: es => a <- atoms_of e ;; r <- all_atoms es ;; Ok (a ++ r)
  end.

(** [getterms] on the array [np.array(expression)] flattened. *)
Definition getterms (expression : seq pyval) : result (seq expr) :=
  atoms_ <- all_atoms expression ;;
  let terms_ := [seq atom <- py_set atoms_ | is_term atom] in
  Ok (sort sort_key_le terms_).

Section Design.

Variable E : SymPy.

(** The [k]-th integer [np.random.randint] returns. *)
Variable np_random : nat -> Z.

(** [np.random.randint(low=low, high=high)] *)
Definition np_random_randint (low high : Z) : M Z :=
  fun s => (Ok (low + (np_random (rand_draws s.2)) mod (high - low))%Z,
            (s.1, {| dummy_count := dummy_count s.2;
                     rand_draws := (rand_draws s.2).+1 |})).

(** The loop of [Formula._getcoefs]. *)
Fixpoint _getcoefs_loop (ts : seq expr) : M unit :=
  match ts with
  | [::] => ret tt
  | term :: ts' =>
      self <~ get_self ;;
      b <~ new_Beta (char self ++ str_of_nat (_counter self)) ;;
      modify_self (fun self =>
        set__counter (_counter self).+1
          (set__coefs (setdefault (odflt [::] (_coefs self)) term b) self)) ;;;
      _getcoefs_loop ts'
  end.

(** [Formula._getcoefs] *)
Definition _getcoefs : M (seq (expr * expr)) :=
  self <~ get_self ;;
  (if _coefs self is None then
     modify_self (set__coefs [::]) ;;;
     _getcoefs_loop (terms self)
   else ret tt) ;;;
  self <~ get_self ;;
  ret (odflt [::] (_coefs self)).

(** [np.sum] of an array of objects adds them from the left; of the
    empty array [np.array([]) * np.asarray([])], of dtype [float64], it is
    [0.0]. *)
Definition np_sum (a : seq expr) : pyval :=
  match a with
  | [::] => NpFloat64 0
  | x :: a' => PyExpr (foldl (py_add E) x a')
  end.

(** [self.coefs[term]] *)
Definition coefs_getitem (term : expr) : M expr :=
  coefs <~ _getcoefs ;;
  match dict_get coefs term with
  | Some b => ret b
  | None => raise (KeyError (str_of_symbol term))
  end.

(** [Formula._getmean] *)
Definition _getmean : M pyval :=
  self <~ get_self ;;
  b <~ mapM coefs_getitem (terms self) ;;
  self <~ get_self ;;
  ret (np_sum [seq py_mul E bt.1 bt.2 | bt <- zip b (terms self)]).

(** [sympy.diff(self.mean, p).doit()] *)
Definition diff_mean (p : expr) : M expr :=
  mean <~ _getmean ;;
  ret (sym_diff E (sympify mean) p).

(** [Formula._getdiff], the property [design_expr]. *)
Definition _getdiff : M (seq expr) :=
  mean <~ _getmean ;;
  let params := sort sort_key_le (py_set (getparams [:: mean])) in
  mapM diff_mean params.

(** The first loop of [_setup_design]: each term is renamed, in every
    entry of [d], to a symbol numbered from the random offset. *)
Fixpoint rename_terms (random_offset : Z) (i : nat) (terms_ : seq expr)
    (d : seq expr) : seq expr * seq expr :=
  match terms_ with
  | [::] => (d, [::])
  | t :: ts =>
      let newt :=
        Symbol ("__t" ++ str_of_Z (Z.of_nat i + random_offset) ++ "__") in
      let d := [seq sym_subs E dj t newt | dj <- d] in
      let: (d, newterms) := rename_terms random_offset i.+1 ts d in
      (d, newt :: newterms)
  end.

(** The second loop: each parameter left is renamed to a new dummy. *)
Fixpoint rename_params (random_offset : Z) (i : nat) (params : seq expr)
    (d : seq expr) : M (seq expr * seq expr) :=
  match params with
  | [::] => ret (d, [::])
  | p :: ps =>
      newp <~ new_Dummy
        ("__p" ++ str_of_Z (Z.of_nat i + random_offset) ++ "__") ;;
      let d := [seq sym_subs E dj p newp | dj <- d] in
      dn <~ rename_params random_offset i.+1 ps d ;;
      ret (dn.1, newp :: dn.2)
  end.

(** [t.factor_name] of a factor term, [str(t)] of another term. *)
Definition preterm_name (t : expr) : string :=
  match t with
  | FactorTerm f _ => f
  | _ => str_of_symbol t
  end.

(** [Formula._setup_design] *)
Definition _setup_design : M unit :=
  d <~ _getdiff ;;
  random_offset <~ np_random_randint 0 (2 ^ 30) ;;
  mean <~ _getmean ;;
  terms_ <~ liftR (getterms [:: mean]) ;;
  let: (d, newterms) := rename_terms random_offset 0 terms_ d in
  design_expr <~ _getdiff ;;
  let params := getparams [seq PyExpr e | e <- design_expr] in
  dn <~ rename_params random_offset 0 params d ;;
  let: (d, newparams) := dn in
  modify_self (set__f (lambdify (newparams ++ newterms) d)) ;;;
  let preterm := undup [seq preterm_name t | t <- terms_] in
  dt_p <~ liftR (np_dtype [seq str_of_symbol p | p <- params]) ;;
  dt_t <~ liftR (np_dtype [seq str_of_symbol t | t <- terms_]) ;;
  dt_pre <~ liftR (np_dtype preterm) ;;
  modify_self (set__dtypes
    {| dt_param := dt_p; dt_term := dt_t; dt_preterm := dt_pre |}) ;;;
  modify_self (set___terms terms_).

(** What [design] returns: a float array, the same viewed through named
    fields, or the design matrix with its contrast matrices. *)
Inductive design_value : Type :=
| DArray (a : ndarray)
| DRec (names : seq string) (a : ndarray)
| DContrasts (D : ndarray) (cmatrices : seq (string * ndarray)).

(** The part of [design] below its checks (from [term_recarray = ...] to
    the end): the evaluation of the compiled expressions on the columns
    of [input], and the contrast matrices. *)
Variable design_evaluate :
  recarray -> option recarray -> bool -> option (seq (string * pyobj)) ->
  M design_value.

(** [list(self.terms) == [sympy.Number(1)]] *)
Definition list_eqb (a b : seq expr) : bool :=
  (size a == size b) && all id [seq expr_eqb xy.1 xy.2 | xy <- zip a b].

(** [Formula.design] *)
Definition design (input : recarray) (param : option recarray)
    (return_float : bool) (contrasts : option (seq (string * pyobj)))
    : M design_value :=
  _setup_design ;;;
  let preterm_recarray := input in
  let param_recarray := param in
  self <~ get_self ;;
  let dts := odflt (MkDtypes [::] [::] [::]) (_dtypes self) in
  if ~~ issuperset (dtype_names preterm_recarray) (dt_preterm dts) then
    raise (ValueError "for term, expecting a recarray with dtype having the following names")
  else
  (if param_recarray is Some pr then
     if ~~ issuperset (dtype_names pr) (dt_param dts) then
       raise (ValueError "for param, expecting a recarray with dtype having the following names")
     else ret tt
   else ret tt) ;;;
  if list_eqb (terms self) [:: Number 1] then
    let a := np_ones (size (rows preterm_recarray)) in
    ret (if ~~ return_float then DRec [:: "intercept"] a else DArray a)
  else if dt_term dts is [::] then
    raise (ValueError "none of the expressions in self.terms are Term instances; shape of resulting undefined")
  else
    design_evaluate input param return_float contrasts.

End Design.

(** ** Contrast matrices

    Matrices have their shape in their type, so [L] is a two-dimensional
    array of shape [(r, c)] and [D] one of shape [(n, p)]; entries are
    taken in a field. *)

Section Contrast.

Local Open Scope ring_scope.

Variable F : fieldType.

(** [scipy.linalg.pinv] *)
Variable pinv : forall n p : nat, 'M[F]_(n, p) -> 'M[F]_(p, n).

(** [full_rank(X, r)] of [nipy.algorithms.utils.matrices]: a matrix of
    [r] columns. *)
Variable full_rank : forall n q : nat, 'M[F]_(n, q) -> forall r : nat, 'M[F]_(n, r).

(** Modelled from the spec: [matrix_rank] of
    [nipy.algorithms.utils.matrices] is not among the sources; the spec
    has it compute the rank of [Lp]. *)
Definition matrix_rank (n q : nat) (X : 'M[F]_(n, q)) : nat := \rank X.

(** A contrast matrix: [c_rows] rows of length [p]. *)
Record contrast (p : nat) : Type :=
  MkContrast { c_rows : nat; c_matrix : 'M[F]_(c_rows, p) }.

(** [np.squeeze(C)] keeps the entries of [C]; of its shape it keeps the
    axes whose length is not one. *)
Definition np_squeeze (p : nat) (C : contrast p) : contrast p := C.

Definition squeezed_shape (p : nat) (C : contrast p) : seq nat :=
  [seq d <- [:: c_rows C; p] | d != 1].

(** The two branches that compute [C] from [L]: [np.dot(pseudo, L).T]
    when [L.shape[0] == n], else [np.dot(pseudo, np.dot(D, L.T)).T],
    whose inner product needs [L.shape[1] == p]. *)
Definition raw_contrast (r c : nat) (L : 'M[F]_(r, c)) (n p : nat)
    (D : 'M[F]_(n, p)) (pseudo : 'M[F]_(p, n)) : result (contrast p) :=
  match @eqP _ r n with
  | ReflectT e =>
      Ok (MkContrast (pseudo *m castmx (e, erefl c) L)^T)
  | ReflectF _ =>
      match @eqP _ c p with
      | ReflectT e =>
          Ok (MkContrast (pseudo *m (D *m (castmx (erefl r, e) L)^T))^T)
      | ReflectF _ => Raise (ValueError "shapes not aligned")
      end
  end.

(** [contrast_from_cols_or_rows] *)
Definition contrast_from_cols_or_rows (r c : nat) (L : 'M[F]_(r, c))
    (n p : nat) (D : 'M[F]_(n, p)) (pseudo : option 'M[F]_(p, n))
    : result (contrast p) :=
  if (r != n) && (c != p) then
    Raise (ValueError "shape of L and D mismatched")
  else
    let pseudo := if pseudo is Some P then P else pinv D in
    C <- raw_contrast L D pseudo ;;
    let Lp := D *m (c_matrix C)^T in
    let Lp_rank := matrix_rank Lp in
    if Lp_rank != c_rows C then
      let Lp := full_rank Lp Lp_rank in
      let C := MkContrast (pseudo *m Lp)^T in
      Ok (np_squeeze C)
    else Ok (np_squeeze C).

End Contrast.

(** ** A small instance of the SymPy operations

    Enough of SymPy's automatic evaluation to run the definitions above
    on sums and products of symbols: numbers are folded, [0] and [1] are
    absorbed, and a symbol differentiates to [1] or [0]. *)

Definition mini_add (a b : expr) : expr :=
  match a, b with
  | Number Z0, _ => b
  | _, Number Z0 => a
  | Number x, Number y => Number (x + y)
  | _, _ => if expr_eqb a b then Mul (Number 2) a else Add a b
  end.

Definition mini_mul (a b : expr) : expr :=
  match a, b with
  | Number Z0, _ => Number 0
  | _, Number Z0 => Number 0
  | Number (Zpos xH), _ => b
  | _, Number (Zpos xH) => a
  | Number x, Number y => Number (x * y)
  | _, _ => Mul a b
  end.

Definition mini_sub (a b : expr) : expr :=
  if expr_eqb a b then Number 0
  else mini_add a (mini_mul (Number (-1)) b).

Fixpoint mini_diff (e p : expr) : expr :=
  match e with
  | Add a b => mini_add (mini_diff a p) (mini_diff b p)
  | Mul a b =>
      mini_add (mini_mul (mini_diff a p) b) (mini_mul a (mini_diff b p))
  | Pow a (Number k) =>
      mini_mul (mini_mul (Number k) (Pow a (Number (k - 1)))) (mini_diff a p)
  | Pow _ _ | Func _ _ => Func "Derivative" e
  | _ => if expr_eqb e p then Number 1 else Number 0
  end.

Fixpoint mini_subs (e old new : expr) : expr :=
  if expr_eqb e old then new
  else match e with
       | Add a b => Add (mini_subs a old new) (mini_subs b old new)
       | Mul a b => Mul (mini_subs a old new) (mini_subs b old new)
       | Pow a b => Pow (mini_subs a old new) (mini_subs b old new)
       | Func f a => Func f (mini_subs a old new)
       | _ => e
       end.

Definition mini_sympy : SymPy :=
  {| sym_add := mini_add; sym_sub := mini_sub; sym_mul := mini_mul;
     sym_diff := mini_diff; sym_subs := mini_subs |}.

(** A run of [np.random.randint] that returns 7, 8, 9, ... *)
Definition sample_random (k : nat) : Z := (7 + Z.of_nat k)%Z.

(** An evaluation step for runs that end before it is reached. *)
Definition no_evaluation (input : recarray) (param : option recarray)
    (return_float : bool) (contrasts : option (seq (string * pyobj)))
    : M design_value :=
  raise (ValueError "the compiled design is not evaluated").

(** A [full_rank] over a field: the column basis of [X] when [r] is the
    rank of [X]. *)
Definition col_basis (F : fieldType) (n q : nat) (X : 'M[F]_(n, q)) (r : nat)
    : 'M[F]_(n, r) :=
  match @eqP _ (\rank X) r with
  | ReflectT e => castmx (erefl n, e) (col_base X)
  | ReflectF _ => 0%R
  end.


(** ** Vocabulary of the statements *)






Definition is_Beta (e : expr) : bool := if e is Beta _ _ then true else false.

Definition found_Beta (d : seq (expr * expr)) (t : expr) : bool :=
  if dict_get d t is Some b then is_Beta b else false.

Definition values_Beta (d : seq (expr * expr)) : bool :=
  all (fun kv => is_Beta kv.2) d.

(** The invariant of [_coefs]: once the attribute exists it maps every
    term of the formula to a [Beta]. *)
Definition coefs_ok (self : Formula) : bool :=
  if _coefs self is Some d then all (found_Beta d) (terms self) else true.

(** An instance whose [mean] no longer changes it: its coefficients are
    cached, or it has no term and never asks for them. *)
Definition settled (self : Formula) : bool :=
  coefs_ok self && (isSome (_coefs self) || nilp (terms self)).

(** The attributes the coefficient cache leaves alone. *)
Definition same_object (self self' : Formula) : Prop :=
  [/\ _terms self' = _terms self, _f self' = _f self,
      _dtypes self' = _dtypes self & __terms self' = __terms self].

(** The names the first loop of [_setup_design] gives [n] terms, counted
    from [i]. *)
Definition term_placeholders (random_offset : Z) (i n : nat) : seq expr :=
  [seq Symbol ("__t" ++ str_of_Z (Z.of_nat j + random_offset) ++ "__")
     | j <- iota i n].

(** The three dtypes [_setup_design] builds, in the order it builds them. *)
Definition setup_dtypes (params terms_ : seq expr) : result dtypes :=
  dt_p <- np_dtype [seq str_of_symbol p | p <- params] ;;
  dt_t <- np_dtype [seq str_of_symbol t | t <- terms_] ;;
  dt_pre <- np_dtype (undup [seq preterm_name t | t <- terms_]) ;;
  Ok {| dt_param := dt_p; dt_term := dt_t; dt_preterm := dt_pre |}.

Section DesignVocabulary.

Variable E : SymPy.

(** The value of [self.mean] on an instance with cached coefficients. *)
Definition pure_mean (self : Formula) : pyval :=
  np_sum E
    [seq py_mul E (odflt (Number 0) (dict_get (odflt [::] (_coefs self)) t)) t
       | t <- terms self].

(** The value of [self.design_expr] on such an instance. *)
Definition pure_design_expr (self : Formula) : seq expr :=
  [seq sym_diff E (sympify (pure_mean self)) p
     | p <- sort sort_key_le (py_set (getparams [:: pure_mean self]))].

End DesignVocabulary.

(** * Further functions of the module *)

(** [isinstance(v, numpy.float64)] *)
Definition is_np_float64 (v : pyval) : bool :=
  if v is NpFloat64 _ then true else false.

(** [a == b] on two levels: an int never equals a string. *)
Definition level_eqb (a b : level) : bool :=
  match a, b with
  | LInt x, LInt y => Z.eqb x y
  | LStr x, LStr y => x == y
  | _, _ => false
  end.

(** ** [np.unique]

    The array is sorted and an element is kept when it differs from the
    one before it. *)
Section Unique.

Variable T : Type.
Variables le eq : rel T.

Fixpoint drop_repeats (prev : T) (s : seq T) : seq T :=
  match s with
  | [::] => [::]
  | y :: s' =>
      if eq prev y then drop_repeats y s' else y :: drop_repeats y s'
  end.

Definition unique_sorted (s : seq T) : seq T :=
  if s is x :: s' then x :: drop_repeats x s' else [::].

Definition np_unique_seq (s : seq T) : seq T := unique_sorted (sort le s).

End Unique.

(** The order in which NumPy sorts floats: NaN comes last. *)
Definition float_le (a b : float64) : bool :=
  match a, b with
  | _, NaN => true
  | NaN, _ => false
  | Inf true, _ => true
  | _, Inf true => false
  | _, Inf false => true
  | Inf false, _ => false
  | Finite x, Finite y => Qle_bool x y
  end.

(** Two floats [np.unique] takes for one value: equal ones, and two
    NaN. *)
Definition float_same (a b : float64) : bool := float_le a b && float_le b a.

(** [np.unique(col)]; a 0-d array is flattened first. *)
Definition np_unique (a : levels_array) : levels_array :=
  match a with
  | ArrI xs => ArrI (np_unique_seq Z.leb Z.eqb xs)
  | ArrF xs => ArrF (np_unique_seq float_le float_same xs)
  | ArrU xs => ArrU (np_unique_seq String.leb String.eqb xs)
  | ArrS xs => ArrS (np_unique_seq String.leb String.eqb xs)
  | ArrU0 s => ArrU [:: s]
  end.

(** [Factor.fromcol] on a plain array, one whose [dtype.names] is
    [None]; [Factor(name, levels)] takes the default [char]. *)
Definition Factor_fromcol (col : levels_array) (name_ : string) : result Factor :=
  if ndim col != 1 then
    Raise (ValueError "expecting an array that can be thought of as a column or field of a recarray")
  else
    let levels_ := np_unique col in
    let name_ := if name_ == "" then "factor" else name_ in
    Factor___init__ name_ levels_ "b".


Definition integral (a : float64) : bool := float_eqb a (np_round a).

(** Whether a level is an int. *)
Definition level_is_int (l : level) : bool :=
  if l is LInt _ then true else false.

(** ** [Formula.__getitem__] and [Factor.get_term] *)

Section Printing.

(** SymPy's printer on an expression that is no symbol and no integer. *)
Variable str_compound : expr -> string.

(** [str(e)] *)
Definition py_str (e : expr) : string :=
  match e with
  | Float _ | Add _ _ | Mul _ _ | Pow _ _ | Func _ _ => str_compound e
  | _ => str_of_symbol e
  end.

(** [Formula.__getitem__]: [names.index(key)] is the first position of
    [key], and raises when there is none. *)
Definition Formula___getitem__ (self : Formula) (key : string) : result expr :=
  let names := [seq py_str t | t <- terms self] in
  if key \in names then Ok (nth (Number 0) (terms self) (index key names))
  else Raise (ValueError ("term " ++ key ++ " not found")).

(** [Factor.get_term], for a level that is an int or a str. *)
Definition Factor_get_term (self : Factor) (lvl : level) : result expr :=
  if ~~ has (level_eqb lvl) (levels self) then
    Raise (ValueError "level not found")
  else Formula___getitem__ self (name self ++ "_" ++ _to_str lvl).

End Printing.

(** ** [natural_spline]

    [implemented_function(n, f)(t)] is the application [n(t)] of an
    undefined function; [order] is a natural number, the knots are
    floats. *)
Definition natural_spline (t : expr) (knots : seq Q) (order : nat)
    (intercept : bool) : Formula :=
  let fns := [seq Func ("ns_" ++ str_of_nat i) t | i <- iota 0 order.+1] in
  let i := order in
  let fns := fns ++ [seq Func ("ns_" ++ str_of_nat (j + i + 1)) t
                    | j <- iota 0 (size knots)] in
  let fns := if ~~ intercept then behead fns else fns in
  Formula___init__ fns "b".

(** ** [Formula.__mul__] *)

(** [self] is a [Formula] or an instance of its subclass [Factor]. *)
Inductive formula_obj : Type :=
| AFormula (f : Formula)
| AFactor (f : Factor).

Definition formula_part (o : formula_obj) : Formula :=
  match o with
  | AFormula f => f
  | AFactor f => f
  end.

(** [hasattr(obj, "_factor_flag")] *)
Definition is_factor (o : formula_obj) : bool :=
  if o is AFactor _ then true else false.

Section Product.

Variable E : SymPy.

(** The order [default_sort_key] puts on the products. *)
Variable key_le : rel expr.

(** [Term.__mul__] is not defined by the class: the attribute resolves
    to the product of SymPy. *)
Definition Term___mul__ (a b : expr) : expr := sym_mul E a b.

Definition Formula___mul__ (self : formula_obj) (other : pyobj)
    : result formula_obj :=
  match other with
  | ObjExpr _ => Raise (ValueError "only two Formulas can be multiplied together")
  | ObjFormula other =>
      if is_factor self && Formula___eq__ (formula_part self) other then Ok self
      else
        let v := flatten
          [seq [seq (if is_term sterm then Term___mul__ sterm oterm
                     else if is_term oterm then Term___mul__ oterm sterm
                     else py_mul E sterm oterm)
               | oterm <- terms other]
          | sterm <- terms (formula_part self)] in
        let terms_ := sort key_le (py_set v) in
        Ok (AFormula (Formula___init__ terms_ "b"))
  end.

End Product.

(** ** [Formula.fromrec] *)

(** A record array of one dimension by its fields: the name and the
    column of each. *)
Definition table : Type := seq (string * levels_array).

(** [Term(n).formula] *)
Definition Term_formula (n : string) : Formula :=
  Formula___init__ [:: Term n] "b".

(** [f[n] = v] on a [dict] in insertion order. *)
Fixpoint dict_setitem (f : seq (string * Formula)) (n : string) (v : Formula)
    : seq (string * Formula) :=
  match f with
  | [::] => [:: (n, v)]
  | (k, x) :: f' => if k == n then (k, v) :: f' else (k, x) :: dict_setitem f' n v
  end.

(** [del f[d]] *)
Definition dict_delitem (f : seq (string * Formula)) (d : string)
    : result (seq (string * Formula)) :=
  if d \in [seq nv.1 | nv <- f] then Ok [seq nv <- f | nv.1 != d]
  else Raise (KeyError d).

(** The first loop of [fromrec], over [rec.dtype.names]. *)
Fixpoint fromrec_fields (rec : table) (f : seq (string * Formula))
    : result (seq (string * Formula)) :=
  match rec with
  | [::] => Ok f
  | (n, col) :: rec' =>
      v <- (if kind_in_SOU col
            then fa <- Factor_fromcol col n ;; Ok (formula_of fa)
            else Ok (Term_formula n)) ;;
      fromrec_fields rec' (dict_setitem f n v)
  end.

(** The second loop, over [drop]. *)
Fixpoint fromrec_drop (f : seq (string * Formula)) (drop : seq string)
    : result (seq (string * Formula)) :=
  match drop with
  | [::] => Ok f
  | d :: drop' => f' <- dict_delitem f d ;; fromrec_drop f' drop'
  end.

(** [sum(elements, start=start)] on formulas. *)
Fixpoint py_sum (elements : seq Formula) (start : Formula) : result Formula :=
  match elements with
  | [::] => Ok start
  | e :: es => s <- Formula___add__ start (ObjFormula e) ;; py_sum es s
  end.

Definition Formula_fromrec (rec : table) (keep drop : seq string)
    : result Formula :=
  f <- fromrec_fields rec [::] ;;
  f <- fromrec_drop f drop ;;
  let elements :=
    if keep is _ :: _ then [seq nt.2 | nt <- f & nt.1 \in keep]
    else [seq nt.2 | nt <- f] in
  py_sum elements (Formula___init__ [::] "b").

(** The terms a field contributes: the factor terms of the distinct
    values of a column of strings, the [Term] of the name else. *)
Definition field_terms (nc : string * levels_array) : seq expr :=
  if kind_in_SOU nc.2
  then [seq FactorTerm (if nc.1 == "" then "factor" else nc.1) l
       | l <- cast_levels (np_unique nc.2)]
  else [:: Term nc.1].

(** * Properties *)

(** ** SymPy's [==] is an equivalence *)

Lemma Qeq_boolC (a b : Q) : Qeq_bool a b = Qeq_bool b a.
Proof.
case ab: (Qeq_bool a b); case ba: (Qeq_bool b a) => //.
- by rewrite (Qeq_bool_sym _ _ ab) in ba.
- by rewrite (Qeq_bool_sym _ _ ba) in ab.
Qed.

Lemma expr_eqb_refl (x : expr) : expr_eqb x x.
Proof.
elim: x => //= [z|q|? ?|? ?|a -> b ->|a -> b ->|a -> b ->|? a ->] //;
  rewrite ?eqxx ?Z.eqb_refl ?Qeq_bool_refl //.
Qed.

Lemma expr_eqb_sym (x y : expr) : expr_eqb x y = expr_eqb y x.
Proof.
elim: x y => [a|a|a|a i|a i|a|f l|a IHa b IHb|a IHa b IHb|a IHa b IHb|f a IHa]
  [c|c|c|c j|c j|c|g m|c d|c d|c d|g c] //=;
  rewrite ?IHa ?IHb 1?Z.eqb_sym 1?Qeq_boolC 1?[_ == c]eq_sym 1?[i == _]eq_sym
          1?[f == _]eq_sym 1?[FactorTerm_name f l == _]eq_sym //.
Qed.

Lemma expr_eqb_trans (y x z : expr) :
  expr_eqb x y -> expr_eqb y z -> expr_eqb x z.
Proof.
elim: y x z => [a|a|a|a i|a i|a|f l|a IHa b IHb|a IHa b IHb|a IHa b IHb|f a IHa]
  [c|c|c|c j|c j|c|g m|c d|c d|c d|g c] //=
  [c'|c'|c'|c' j'|c' j'|c'|g' m'|c' d'|c' d'|c' d'|g' c'] //=.
- by move=> /Z.eqb_spec -> /Z.eqb_spec ->; rewrite Z.eqb_refl.
- exact: Qeq_bool_trans.
- by move=> /eqP -> /eqP ->.
- by move=> /andP[/eqP -> /eqP ->] /andP[/eqP -> /eqP ->]; rewrite !eqxx.
- by move=> /andP[/eqP -> /eqP ->] /andP[/eqP -> /eqP ->]; rewrite !eqxx.
- by move=> /eqP -> /eqP ->.
- by move=> /eqP -> /eqP ->.
- by move=> /andP[/IHa ha /IHb hb] /andP[/ha -> /hb ->].
- by move=> /andP[/IHa ha /IHb hb] /andP[/ha -> /hb ->].
- by move=> /andP[/IHa ha /IHb hb] /andP[/ha -> /hb ->].
- by move=> /andP[/eqP -> /IHa ha] /andP[/eqP -> /ha ->]; rewrite eqxx.
Qed.

Lemma expr_eqb_congr (x y z : expr) :
  expr_eqb x y -> expr_eqb x z = expr_eqb y z.
Proof.
move=> xy; apply/idP/idP => h.
- by apply: expr_eqb_trans h; rewrite expr_eqb_sym.
- exact: expr_eqb_trans xy h.
Qed.

Lemma py_in_congr (x y : expr) (s : seq expr) :
  expr_eqb x y -> py_in x s = py_in y s.
Proof.
by move=> xy; rewrite /py_in; apply: eq_has => z; exact: expr_eqb_congr.
Qed.

Lemma py_in_py_set (x : expr) (s : seq expr) : py_in x (py_set s) = py_in x s.
Proof.
elim: s => //= y s IH; case: ifP => ys /=;
  rewrite -/(py_in x s) -/(py_in x (py_set s)) IH //.
case xy: (expr_eqb x y) => //=.
by rewrite (py_in_congr s xy) ys.
Qed.

Lemma mini_sympy_laws : SymPyLaws mini_sympy.
Proof.
split=> [e|s] /=.
- by case: e => [[|[p|p|]|p]|q|n|n i|n i|n|f l|a b|a b|a b|f a].
- by case: s => //= *; rewrite ?eqxx.
Qed.

(** ** Terms *)

Section TermFacts.

Variable E : SymPy.

(** C6: a term added to itself is itself and a factor term multiplied by
    itself is itself; with an operand that is not equal to it, the sum
    or product is SymPy's. *)
Theorem term_self_operations_idempotent (t f other : expr) :
  is_term t -> is_factor_term f ->
  [/\ py_add E t t = t,
      expr_eqb (py_add E t t) t
    & ~~ expr_eqb t other -> py_add E t other = sym_add E t other] /\
  [/\ py_mul E f f = f,
      expr_eqb (py_mul E f f) f
    & ~~ expr_eqb f other -> py_mul E f other = sym_mul E f other].
Proof.
move=> ht hf; rewrite /py_add /py_mul ht hf /Term___add__ /FactorTerm___mul__.
by rewrite !expr_eqb_refl; split; split=> // /negbTE ->.
Qed.

End TermFacts.

(** C6 at the term [x] and the factor term [f_a], against [y]. *)
Lemma term_self_operations_witness :
  [/\ py_add mini_sympy (Term "x") (Term "x") = Term "x",
      py_add mini_sympy (Term "x") (Term "y") = Add (Term "x") (Term "y")
    & py_mul mini_sympy (FactorTerm "f" (LStr "a")) (FactorTerm "f" (LStr "a"))
        = FactorTerm "f" (LStr "a")].
Proof.
have [[h1 _ h2] [h3 _ _]] :=
  @term_self_operations_idempotent mini_sympy (Term "x")
    (FactorTerm "f" (LStr "a")) (Term "y") (erefl _) (erefl _).
by split=> //; rewrite h2.
Defined.

(** ** Formula algebra *)

Lemma has_filterI (T : Type) (a p : pred T) (s : seq T) :
  has a (filter p s) = has (predI a p) s.
Proof. by elim: s => //= x s <-; case: (p x); rewrite /= ?andbT ?andbF. Qed.

(** C5: [A - B] succeeds for any two formulas and keeps, in the order of
    [A], exactly the terms of [A] that are equal to no term of [B]; a term
    of [B] that [A] lacks changes nothing, and a term of [A] that occurs in
    [B] loses all its occurrences. *)
Theorem formula_sub_removes_every_occurrence (A B : Formula) :
  exists F : Formula,
    [/\ Formula___sub__ A (ObjFormula B) = Ok F,
        terms F = [seq t <- terms A | ~~ py_in t (terms B)],
        terms F = mask [seq ~~ py_in t (terms B) | t <- terms A] (terms A),
        forall t, py_in t (terms F) = py_in t (terms A) && ~~ py_in t (terms B)
      & forall t, count (expr_eqb t) (terms F) =
                  if py_in t (terms B) then 0 else count (expr_eqb t) (terms A)].
Proof.
exists (Formula___init__ [seq t <- terms A | ~~ py_in t (terms B)] "b").
have eqf : [seq t <- terms A | ~~ py_in t (py_set (terms B))] =
           [seq t <- terms A | ~~ py_in t (terms B)].
  by apply: eq_filter => t; rewrite py_in_py_set.
have same t x : expr_eqb t x ->
    has (expr_eqb x) (_terms B) = has (expr_eqb t) (_terms B).
  by move=> tx; rewrite -!/(py_in _ _) (py_in_congr _ tx).
split; rewrite /terms /=.
- by rewrite /Formula___sub__ /terms eqf.
- by [].
- by rewrite filter_mask.
- move=> t; rewrite /py_in has_filterI.
  case tB: (has (expr_eqb t) (_terms B)); rewrite ?andbF ?andbT.
    rewrite -(has_pred0 (_terms A)); apply: eq_has => x /=.
    by case tx: (expr_eqb t x) => //=; rewrite (same _ _ tx) tB.
  apply: eq_has => x /=.
  by case tx: (expr_eqb t x) => //=; rewrite (same _ _ tx) tB.
- move=> t; rewrite /py_in count_filter.
  case tB: (has (expr_eqb t) (_terms B)).
    rewrite -(count_pred0 (_terms A)); apply: eq_count => x /=.
    by case tx: (expr_eqb t x) => //=; rewrite (same _ _ tx) tB.
  apply: eq_count => x /=.
  by case tx: (expr_eqb t x) => //=; rewrite (same _ _ tx) tB.
Qed.

(** [x, y, x] minus [x, z] is [y]: both occurrences of [x] go, [z] is
    ignored. *)
Example formula_sub_example :
  Formula___sub__ (Formula___init__ [:: Term "x"; Term "y"; Term "x"] "b")
    (ObjFormula (Formula___init__ [:: Term "x"; Term "z"] "c"))
  = Ok (Formula___init__ [:: Term "y"] "b").
Proof. by []. Qed.

Lemma Formula_eqE (A B : Formula) :
  Formula___eq__ A B = all2 expr_eqb (terms A) (terms B).
Proof.
rewrite all2E /Formula___eq__ /np_shape /np_array /np_all /np_equal all_map.
have -> : ([:: size (terms A)] != [:: size (terms B)])
          = (size (terms A) != size (terms B)).
  by rewrite eqseq_cons eqxx andbT.
by case: (size (terms A) == size (terms B)).
Qed.

Lemma all2_nthP (s o : seq expr) :
  all2 expr_eqb s o <->
  size s = size o /\
  forall i, i < size s -> expr_eqb (nth (Number 0) s i) (nth (Number 0) o i).
Proof.
elim: s o => [|x s IH] [|y o] //=; try by split=> // -[].
split.
  move=> /andP[xy /IH [es h]]; split; first by rewrite es.
  by case=> [|i] //=; rewrite ltnS; apply: h.
case=> -[es] h; rewrite (h 0) //=; apply/IH; split=> // i lt_i.
exact: (h i.+1).
Qed.

(** C10: two formulas are equal exactly when their term arrays have the
    same shape and equal entries at every position; formulas with the
    same terms are equal, and no other attribute of the right operand
    (its [char], its counter, its cached coefficients, evaluator and
    dtypes) enters the comparison. *)
Theorem formula_eq_compares_terms_only (A B : Formula) :
  [/\ Formula___eq__ A B <->
        np_shape (np_array A) = np_shape (np_array B) /\
        forall i, i < size (terms A) ->
          expr_eqb (nth (Number 0) (terms A) i) (nth (Number 0) (terms B) i),
      terms A = terms B -> Formula___eq__ A B
    & forall counter' char' coefs' f' dtypes' terms',
        (Formula___eq__ A
           (MkFormula (_terms B) counter' char' coefs' f' dtypes' terms')
         = Formula___eq__ A B) /\
        (Formula___eq__
           (MkFormula (_terms A) counter' char' coefs' f' dtypes' terms') B
         = Formula___eq__ A B)].
Proof.
split.
- rewrite Formula_eqE; split.
    by move=> /all2_nthP[es h]; split=> //; rewrite /np_shape /np_array es.
  by case=> -[es] h; apply/all2_nthP.
- move=> e; rewrite Formula_eqE e; apply/all2_nthP; split=> // i _.
  exact: expr_eqb_refl.
- by move=> *; rewrite !Formula_eqE.
Qed.

(** Same terms, another [char] and a filled coefficient cache: equal. *)
Example formula_eq_ignores_char :
  Formula___eq__ (Formula___init__ [:: Term "x"; Term "y"] "b")
    (set__coefs [:: (Term "x", Beta "c0" 0)]
       (Formula___init__ [:: Term "x"; Term "y"] "c")).
Proof. by []. Qed.

(** ** Factors *)

Lemma round_half_even_integral (x : Q) (z : Z) :
  (x == inject_Z z)%Q -> round_half_even x = z /\ int_part x = z.
Proof.
move=> e; split.
- rewrite /round_half_even (Qfloor_comp _ _ e) Qfloor_Z.
  have h : (x - inject_Z z == 0)%Q by rewrite e; exact: Qplus_opp_r.
  by rewrite (Qcompare_comp _ _ h _ _ (Qeq_refl _)).
- rewrite /int_part; move: e; rewrite /Qeq /= Z.mul_1_r => ->.
  by rewrite Z.quot_mul.
Qed.









(** Float levels: [2.0, 3.0] are cast to 2 and 3; [2.0, 1.5] and
    [2.0, nan] are refused; [2.0, inf] is accepted. *)
Example factor_init_float_levels :
  [/\ (exists f : Factor,
         Factor___init__ "a" (ArrF [:: Finite (2 # 1); Finite (6 # 2)]) "b"
           = Ok f /\
         levels f = [:: LInt 2; LInt 3]),
      Factor___init__ "a" (ArrF [:: Finite (2 # 1); Finite (3 # 2)]) "b"
        = Raise (ValueError "levels must be strings or ints"),
      Factor___init__ "a" (ArrF [:: Finite (2 # 1); NaN]) "b"
        = Raise (ValueError "levels must be strings or ints")
    & exists f : Factor,
        Factor___init__ "a" (ArrF [:: Finite (2 # 1); Inf false]) "b" = Ok f].
Proof. by split=> //; eexists; first by split; first by []. Qed.

Lemma py_index_last (n : nat) : py_index n.+1 (-1)%Z = Some n.
Proof.
rewrite /py_index Nat2Z.inj_succ.
have -> : ((0 <=? -1) && (-1 <? Z.succ (Z.of_nat n)))%Z = false by [].
have -> : ((-1 <? 0) && (- Z.succ (Z.of_nat n) <=? -1))%Z = true.
  by apply/andP; split=> //; apply/Z.leb_spec0; lia.
by congr Some; rewrite -[RHS]Nat2Z.id; congr Z.to_nat; lia.
Qed.

Section MainEffect.

Variable E : SymPy.

Lemma _getmaineffect_at (self : Factor) (ref : Z) :
  _getmaineffect E self ref =
    match py_index (size (_terms self)) ref with
    | Some k =>
        Ok (Formula___init__
              [seq py_sub E vv (nth (Number 0) (_terms self) k)
                 | vv <- take k (_terms self) ++ drop k.+1 (_terms self)] "b")
    | None => Raise (IndexError "list index out of range")
    end.
Proof.
by rewrite /_getmaineffect /py_getitem /py_pop; case: (py_index _ _).
Qed.

(** C7: [_getmaineffect] removes the term at position [ref] and returns
    the formula of the differences (term - removed term) of the others,
    in their order; with the default [ref=-1] of the property
    [main_effect], on a factor with k >= 1 terms, the removed term is
    the last one and the formula has k - 1 terms.  A factor without
    terms has no reference level: there [v[ref]] raises [IndexError]. *)
Theorem main_effect_deviations_from_last (self : Factor) :
  (forall ref : Z,
     _getmaineffect E self ref =
       match py_index (size (_terms self)) ref with
       | Some k =>
           Ok (Formula___init__
                 [seq py_sub E vv (nth (Number 0) (_terms self) k)
                    | vv <- take k (_terms self) ++ drop k.+1 (_terms self)]
                 "b")
       | None => Raise (IndexError "list index out of range")
       end) /\
  match _terms self with
  | [::] => main_effect E self = Raise (IndexError "list index out of range")
  | t0 :: ts =>
      main_effect E self =
        Ok (Formula___init__
              [seq py_sub E vv (last t0 ts) | vv <- belast t0 ts] "b") /\
      size [seq py_sub E vv (last t0 ts) | vv <- belast t0 ts]
        = (size (_terms self)).-1
  end.
Proof.
split; first exact: _getmaineffect_at.
rewrite /main_effect _getmaineffect_at.
case e: (_terms self) => [|t0 ts] //.
rewrite [size _]/= py_index_last size_map size_belast; split=> //.
rewrite (lastI t0 ts) -cats1 take_size_cat ?size_belast //.
rewrite drop_oversize ?size_cat ?size_belast /= ?addn1 // cats0.
by rewrite nth_cat size_belast ltnn subnn.
Qed.

End MainEffect.

(** The edge of the domain: [Factor('a', [])] has no term, and its
    [main_effect] raises [IndexError]. *)
Example main_effect_of_empty_factor :
  (f <- Factor___init__ "a" (ArrI [::]) "b" ;; main_effect mini_sympy f) =
  Raise (IndexError "list index out of range").
Proof. by []. Qed.

(** The main effect of a factor with levels 2, 1, 3: the deviations of
    the first two levels from the third. *)
Example main_effect_example :
  (f <- Factor___init__ "a" (ArrI [:: 2; 1; 3]%Z) "b" ;; main_effect mini_sympy f)
  = Ok (Formula___init__
          [:: Add (FactorTerm "a" (LInt 2))
                (Mul (Number (-1)) (FactorTerm "a" (LInt 3)));
              Add (FactorTerm "a" (LInt 1))
                (Mul (Number (-1)) (FactorTerm "a" (LInt 3)))] "b").
Proof. by []. Qed.

(** ** The coefficient cache *)

Lemma dict_get_congr (d : seq (expr * expr)) (k k' : expr) :
  expr_eqb k k' -> dict_get d k = dict_get d k'.
Proof.
by move=> kk; elim: d => //= -[k0 v] d ->; rewrite (expr_eqb_congr _ kk).
Qed.

Lemma dict_get_rcons (d : seq (expr * expr)) (k v k' : expr) :
  dict_get (rcons d (k, v)) k' =
  if dict_get d k' is Some x then Some x
  else if expr_eqb k' k then Some v else None.
Proof. by elim: d => //= -[k0 v0] d ->; case: (expr_eqb k' k0). Qed.

Lemma dict_get_setdefault (d : seq (expr * expr)) (k v k' : expr) :
  dict_get (setdefault d k v) k' =
  if dict_get d k' is Some x then Some x
  else if expr_eqb k' k then Some v else None.
Proof.
rewrite /setdefault; case e: (dict_get d k) => [x|]; last exact: dict_get_rcons.
case e': (dict_get d k') => [//|]; case kk: (expr_eqb k' k) => //.
by rewrite (dict_get_congr d kk) e in e'.
Qed.

Lemma values_Beta_get (d : seq (expr * expr)) (t b : expr) :
  values_Beta d -> dict_get d t = Some b -> is_Beta b.
Proof.
elim: d => //= -[k v] d IH /andP[/= hv hd]; case: (expr_eqb t k); last exact: IH.
by case=> <-.
Qed.

Lemma values_Beta_setdefault (d : seq (expr * expr)) (k : expr) (n : string)
    (i : nat) :
  values_Beta d -> values_Beta (setdefault d k (Beta n i)).
Proof.
rewrite /setdefault; case: (dict_get d k) => // h.
by rewrite /values_Beta all_rcons.
Qed.

Lemma coefs_okE (self : Formula) (d : seq (expr * expr)) :
  _coefs self = Some d -> coefs_ok self = all (found_Beta d) (terms self).
Proof. by rewrite /coefs_ok => ->. Qed.

Lemma coefs_ok_set (self : Formula) :
  (forall l, coefs_ok (set__f l self) = coefs_ok self) *
  (forall dts, coefs_ok (set__dtypes dts self) = coefs_ok self) *
  (forall ts, coefs_ok (set___terms ts self) = coefs_ok self).
Proof. by []. Qed.

Lemma settled_ok (self : Formula) : settled self -> coefs_ok self.
Proof. by case/andP. Qed.

Lemma zip_map_self (T U : Type) (f : T -> U) (s : seq T) :
  zip [seq f t | t <- s] s = [seq (f t, t) | t <- s].
Proof. by elim: s => //= t s ->. Qed.

Section DesignFacts.

Variable E : SymPy.
Variable np_random : nat -> Z.

Lemma getcoefs_loop_spec (ts : seq expr) (self : Formula) (w : world)
    (d0 : seq (expr * expr)) :
  _coefs self = Some d0 -> values_Beta d0 ->
  exists self' w' d',
    [/\ _getcoefs_loop ts (self, w) = (Ok tt, (self', w')),
        _coefs self' = Some d' /\ values_Beta d',
        forall t, found_Beta d0 t -> found_Beta d' t,
        all (found_Beta d') ts
      & same_object self self' /\ rand_draws w' = rand_draws w].
Proof.
elim: ts self w d0 => [|t ts IH] self w d0 e0 v0.
  by exists self, w, d0; split.
set b := Beta (char self ++ str_of_nat (_counter self)) (dummy_count w).
set self1 := set__counter (_counter self).+1 (set__coefs (setdefault d0 t b) self).
set w1 := {| dummy_count := (dummy_count w).+1; rand_draws := rand_draws w |}.
have [//|self' [w' [d' [eq [e' v'] mono fnd [so dr]]]]] :=
  IH self1 w1 (setdefault d0 t b) _ (values_Beta_setdefault t _ _ v0).
exists self', w', d'; split.
- by rewrite /= /bind /= e0 /= -/b -/self1 -/w1 eq.
- by [].
- move=> x fx; apply: mono; rewrite /found_Beta dict_get_setdefault.
  by move: fx; rewrite /found_Beta; case: (dict_get d0 x).
- rewrite /= fnd andbT; apply: mono.
  rewrite /found_Beta dict_get_setdefault expr_eqb_refl.
  by case e: (dict_get d0 t) => [x|] //; exact: values_Beta_get e.
- by split=> //; case: so.
Qed.

Lemma getcoefs_cached (self : Formula) (w : world) (d : seq (expr * expr)) :
  _coefs self = Some d -> _getcoefs (self, w) = (Ok d, (self, w)).
Proof. by move=> e; rewrite /_getcoefs /bind /= e /= e. Qed.

Lemma getcoefs_fresh (self : Formula) (w : world) :
  _coefs self = None ->
  exists self' w' d',
    [/\ _getcoefs (self, w) = (Ok d', (self', w')),
        _coefs self' = Some d',
        coefs_ok self'
      & same_object self self' /\ rand_draws w' = rand_draws w].
Proof.
move=> e.
have [//|//|self' [w' [d' [eq [e' v'] _ fnd [so dr]]]]] :=
  @getcoefs_loop_spec (terms self) (set__coefs [::] self) w [::].
exists self', w', d'; split=> //.
- by rewrite /_getcoefs /bind /= e /= eq /= e'.
- by rewrite (coefs_okE e'); case: so => ts _ _ _; rewrite /terms ts.
Qed.

Lemma coefs_getitem_cached (self : Formula) (w : world)
    (d : seq (expr * expr)) (t : expr) :
  _coefs self = Some d -> found_Beta d t ->
  coefs_getitem t (self, w) = (Ok (odflt (Number 0) (dict_get d t)), (self, w)).
Proof.
move=> e; rewrite /coefs_getitem /bind (getcoefs_cached _ e) /found_Beta.
by case: (dict_get d t).
Qed.

Lemma mapM_coefs_cached (self : Formula) (w : world) (d : seq (expr * expr))
    (ts : seq expr) :
  _coefs self = Some d -> all (found_Beta d) ts ->
  mapM coefs_getitem ts (self, w) =
    (Ok [seq odflt (Number 0) (dict_get d t) | t <- ts], (self, w)).
Proof.
move=> e; elim: ts => //= t ts IH /andP[ft fts].
by rewrite /bind (coefs_getitem_cached _ e ft) IH.
Qed.

Lemma getmean_settled (self : Formula) (w : world) :
  settled self -> _getmean E (self, w) = (Ok (pure_mean E self), (self, w)).
Proof.
rewrite /settled /_getmean /pure_mean => /andP[ok].
case e: (_coefs self) => [d|] /=.
  move=> _; rewrite /bind /= (mapM_coefs_cached _ e) -?(coefs_okE e) //=.
  by rewrite zip_map_self -map_comp.
by rewrite /bind /= /terms; case et: (_terms self) => [|//] _; rewrite /= et.
Qed.

Lemma getmean_settles (self : Formula) (w : world) :
  coefs_ok self ->
  exists self' w',
    [/\ _getmean E (self, w) = (Ok (pure_mean E self'), (self', w')),
        settled self',
        same_object self self' /\ rand_draws w' = rand_draws w
      & settled self -> (self', w') = (self, w)].
Proof.
move=> ok; case st: (settled self).
  by exists self, w; split=> //; exact: getmean_settled.
move: st; rewrite /settled ok /=.
case e: (_coefs self) => [//|] /=; case et: (terms self) => [//|t ts] _.
have [self' [w' [d' [eq e' ok' [so dr]]]]] := getcoefs_fresh w e.
have st' : settled self' by rewrite /settled ok' e'.
exists self', w'; split=> //.
rewrite -(getmean_settled w' st') /_getmean /bind /= et /= /bind.
have ets : terms self' = t :: ts by case: so => ts' _ _ _; rewrite /terms ts' -et.
rewrite ets /= /bind.
rewrite {1}/coefs_getitem /bind eq.
by rewrite {2}/coefs_getitem /bind (getcoefs_cached _ e').
Qed.

Lemma diff_mean_settled (self : Formula) (w : world) (p : expr) :
  settled self ->
  diff_mean E p (self, w)
    = (Ok (sym_diff E (sympify (pure_mean E self)) p), (self, w)).
Proof. by move=> st; rewrite /diff_mean /bind getmean_settled. Qed.

Lemma mapM_diff_settled (self : Formula) (w : world) (ps : seq expr) :
  settled self ->
  mapM (diff_mean E) ps (self, w) =
    (Ok [seq sym_diff E (sympify (pure_mean E self)) p | p <- ps], (self, w)).
Proof.
by move=> st; elim: ps => //= p ps IH; rewrite /bind diff_mean_settled // IH.
Qed.

Lemma getdiff_settled (self : Formula) (w : world) :
  settled self ->
  _getdiff E (self, w) = (Ok (pure_design_expr E self), (self, w)).
Proof.
by move=> st; rewrite /_getdiff /bind getmean_settled // mapM_diff_settled.
Qed.

Lemma getdiff_settles (self : Formula) (w : world) :
  coefs_ok self ->
  exists self' w',
    [/\ _getdiff E (self, w) = (Ok (pure_design_expr E self'), (self', w')),
        settled self',
        same_object self self' /\ rand_draws w' = rand_draws w
      & settled self -> (self', w') = (self, w)].
Proof.
move=> ok; have [self' [w' [eq st so same]]] := getmean_settles w ok.
exists self', w'; split=> //.
by rewrite /_getdiff /bind eq mapM_diff_settled.
Qed.

(** The first access to [design_expr] fills the coefficient cache; from
    there on the set-up runs as on the instance with the cache filled. *)
Lemma setup_design_settles (self : Formula) (w : world) :
  coefs_ok self ->
  exists self' w',
    [/\ _setup_design E np_random (self, w)
          = _setup_design E np_random (self', w'),
        settled self',
        same_object self self' /\ rand_draws w' = rand_draws w
      & settled self -> (self', w') = (self, w)].
Proof.
move=> ok; have [self' [w' [eq st so same]]] := getdiff_settles w ok.
exists self', w'; split=> //.
by rewrite /_setup_design /bind eq getdiff_settled.
Qed.

Lemma rename_terms_names (off : Z) (i : nat) (ts d : seq expr) :
  (rename_terms E off i ts d).2 = term_placeholders off i (size ts).
Proof.
elim: ts i d => //= t ts IH i d.
rewrite /term_placeholders /= -/(term_placeholders off i.+1 (size ts)).
set d1 := [seq _ | dj <- d].
by rewrite -(IH i.+1 d1); case: (rename_terms _ _ _ _ _).
Qed.

Lemma rename_params_spec (off : Z) (i : nat) (ps d : seq expr)
    (self : Formula) (w : world) :
  exists dn w',
    rename_params E off i ps d (self, w) = (Ok dn, (self, w')) /\
    rand_draws w' = rand_draws w.
Proof.
elim: ps i d w => [|p ps IH] i d w; first by exists (d, [::]), w.
rewrite /= /bind /=.
set w1 := {| dummy_count := _; rand_draws := _ |}.
set d1 := [seq _ | dj <- d].
have [dn [w' [-> dr]]] := IH i.+1 d1 w1.
by eexists; exists w'; split.
Qed.

Lemma randintE (low high : Z) (self : Formula) (w : world) :
  np_random_randint np_random low high (self, w) =
    (Ok (low + np_random (rand_draws w) mod (high - low))%Z,
     (self, {| dummy_count := dummy_count w; rand_draws := (rand_draws w).+1 |})).
Proof. by []. Qed.

(** The set-up on an instance with cached coefficients, step by step. *)
Lemma setup_design_settled (self : Formula) (w : world) :
  settled self ->
  let off := (np_random (rand_draws w) mod 2 ^ 30)%Z in
  let w1 := {| dummy_count := dummy_count w; rand_draws := (rand_draws w).+1 |} in
  match getterms [:: pure_mean E self] with
  | Raise e => _setup_design E np_random (self, w) = (Raise e, (self, w1))
  | Ok terms_ =>
      exists newparams d w2,
        rand_draws w2 = (rand_draws w).+1 /\
        let self2 :=
          set__f (lambdify (newparams ++ term_placeholders off 0 (size terms_)) d)
            self in
        _setup_design E np_random (self, w) =
          match setup_dtypes
                  (getparams [seq PyExpr e | e <- pure_design_expr E self]) terms_
          with
          | Ok dts => (Ok tt, (set___terms terms_ (set__dtypes dts self2), w2))
          | Raise e => (Raise e, (self2, w2))
          end
  end.
Proof.
move=> st off w1.
rewrite /_setup_design /bind getdiff_settled // randintE Z.add_0_l Z.sub_0_r.
rewrite -/off -/w1 getmean_settled // /liftR.
case: (getterms _) => [terms_|//].
case ert: (rename_terms _ _ _ _ _)
  (rename_terms_names off 0 terms_ (pure_design_expr E self)) => [d nt] /= ent.
rewrite getdiff_settled //.
set params := getparams _.
have [[d' np] [w2 [-> dr]]] := rename_params_spec off 0 params d self w1.
exists np, d', w2; split=> //=.
rewrite ent /setup_dtypes /liftR.
case: (np_dtype _) => [a|//] /=.
case: (np_dtype _) => [b|//] /=.
by case: (np_dtype _) => [c|//] /=.
Qed.

Variable design_evaluate :
  recarray -> option recarray -> bool -> option (seq (string * pyobj)) ->
  M design_value.

(** [design] ends in the state its set-up leaves, or hands that state to
    the evaluation. *)
Lemma design_after_setup (input : recarray) (param : option recarray)
    (rf : bool) (contrasts : option (seq (string * pyobj))) (s : state) :
  let: (r, s1) := _setup_design E np_random s in
  (design E np_random design_evaluate input param rf contrasts s).2 = s1 \/
  design E np_random design_evaluate input param rf contrasts s =
    design_evaluate input param rf contrasts s1.
Proof.
rewrite /design /bind; case: (_setup_design _ _ _) => [[[]|e] s1] /=; last by left.
case: ifP => _; first by left.
have -> : (if param is Some pr
            then if ~~ issuperset (dtype_names pr)
                        (dt_param (odflt (MkDtypes [::] [::] [::]) (_dtypes s1.1)))
                 then raise (ValueError "for param, expecting a recarray with dtype having the following names")
                 else ret tt
            else ret tt) s1 =
          (if param is Some pr
            then if ~~ issuperset (dtype_names pr)
                        (dt_param (odflt (MkDtypes [::] [::] [::]) (_dtypes s1.1)))
                 then Raise (ValueError "for param, expecting a recarray with dtype having the following names")
                 else Ok tt
            else Ok tt, s1).
  by case: param => [pr|] //; case: ifP.
case: (if param is Some _ then _ else _) => [[]|e] /=; last by left.
case: ifP => _; first by left.
by case: (dt_term _) => [|? ?]; [left | right].
Qed.

(** C1, as the code has it: every call of [design] runs the set-up, also
    on an instance that already holds a compiled evaluator.  The set-up
    draws one more integer from the random generator, and when it
    succeeds the evaluator it stores is the one compiled in this call,
    its term placeholders numbered from this call's offset; [design] then
    finishes in the state the set-up left or evaluates in it. *)
Theorem design_sets_up_on_every_call (input : recarray)
    (param : option recarray) (rf : bool)
    (contrasts : option (seq (string * pyobj))) (self : Formula) (w : world) :
  coefs_ok self ->
  let s := _setup_design E np_random (self, w) in
  [/\ rand_draws s.2.2 = (rand_draws w).+1,
      coefs_ok s.2.1 /\ _terms s.2.1 = _terms self,
      s.1 = Ok tt ->
        exists terms_ newparams d,
          __terms s.2.1 = Some terms_ /\
          _f s.2.1 =
            Some (lambdify
                    (newparams ++
                     term_placeholders
                       (np_random (rand_draws w) mod 2 ^ 30)%Z 0 (size terms_))
                    d)
    & (design E np_random design_evaluate input param rf contrasts (self, w)).2
        = s.2 \/
      design E np_random design_evaluate input param rf contrasts (self, w)
        = design_evaluate input param rf contrasts s.2].
Proof.
move=> ok s; rewrite {}/s.
have := design_after_setup input param rf contrasts (self, w).
have [self1 [w1 [-> st [[et ef ed e_t] dr] _]]] := setup_design_settles w ok.
have := setup_design_settled w1 st.
rewrite dr.
case: (getterms _) => [terms_|e] /=; last first.
  by move=> ->; split=> //; split=> //; exact: settled_ok.
case=> np [d [w2 [dr2 ->]]].
case: (setup_dtypes _ _) => [dts|e] /= da; split=> //.
- by rewrite !coefs_ok_set; split; [exact: settled_ok|].
- by move=> _; exists terms_, np, d.
- by rewrite !coefs_ok_set; split; [exact: settled_ok|].
Qed.

(** C8, the empty formula: [design] on [Formula([])] raises
    [AttributeError] from [getterms(self.mean)], whatever the input, and
    never reaches the check that raises [ValueError] for a formula
    without terms. *)
Theorem design_of_empty_formula_raises_AttributeError (char_ : string)
    (input : recarray) (param : option recarray) (rf : bool)
    (contrasts : option (seq (string * pyobj))) (w : world) :
  (design E np_random design_evaluate input param rf contrasts
     (Formula___init__ [::] char_, w)).1
  = Raise (AttributeError "'numpy.float64' object has no attribute 'atoms'").
Proof. by []. Qed.

Hypothesis laws : SymPyLaws E.

Lemma intercept_mean (self : Formula) :
  settled self -> _terms self = [:: Number 1] ->
  exists n i, pure_mean E self = PyExpr (Beta n i).
Proof.
rewrite /settled /coefs_ok /pure_mean /terms => /andP[ok st] et.
move: ok st; rewrite et /=; case: (_coefs self) => [d|//] /=.
rewrite andbT /found_Beta; case: (dict_get d (Number 1)) => [[]|] // n i _ _.
by exists n, i; rewrite /py_mul /= (mul_one laws).
Qed.

Lemma setup_design_intercept (self : Formula) (w : world) :
  settled self -> _terms self = [:: Number 1] ->
  exists l w2,
    _setup_design E np_random (self, w) =
      (Ok tt,
       (set___terms [::]
          (set__dtypes (MkDtypes [::] [::] [::]) (set__f l self)), w2)).
Proof.
move=> st et; have [n [i em]] := intercept_mean st et.
have := setup_design_settled w st.
have ed : pure_design_expr E self = [:: Number 1].
  by rewrite /pure_design_expr em /= (diff_self laws).
rewrite em ed /=.
by case=> np [d [w2 [_ ->]]]; eexists; exists w2.
Qed.

(** C4: on a formula whose only term is the constant 1, [design] returns
    for any input, parameters and contrasts a vector of ones with one
    entry per row of the input: the float array itself when
    [return_float] is set, else the array under the single field name
    [intercept].  The instance stays one to which this applies. *)
Theorem design_of_intercept_is_ones (input : recarray)
    (param : option recarray) (rf : bool)
    (contrasts : option (seq (string * pyobj))) (self : Formula) (w : world) :
  _terms self = [:: Number 1] -> coefs_ok self ->
  exists self' w',
    [/\ design E np_random design_evaluate input param rf contrasts (self, w) =
          (Ok (if rf then DArray (np_ones (size (rows input)))
               else DRec [:: "intercept"] (np_ones (size (rows input)))),
           (self', w')),
        shape (np_ones (size (rows input))) = [:: size (rows input)],
        data (np_ones (size (rows input))) = nseq (size (rows input)) 1%Q
      & _terms self' = [:: Number 1] /\ coefs_ok self'].
Proof.
move=> et ok.
have [self1 [w1 [es st [[et1 _ _ _] _] _]]] := setup_design_settles w ok.
have [l [w2 e2]] := setup_design_intercept w1 st (etrans et1 et).
exists (set___terms [::] (set__dtypes (MkDtypes [::] [::] [::]) (set__f l self1))), w2.
split=> //.
- rewrite /design /bind es e2 /= /terms /= et1 et /=.
  by case: param => [pr|] /=; case: rf.
- by split; [rewrite /= et1 | rewrite !coefs_ok_set; exact: settled_ok].
Qed.

End DesignFacts.

(** Two observations with the fields [y] and [z]. *)
Definition sample_obs : recarray :=
  {| dtype_names := [:: "y"; "z"];
     rows := [:: [:: CNum 1; CStr "u"]; [:: CNum 2; CStr "v"]] |}.

Definition new_world : world := {| dummy_count := 0; rand_draws := 0 |}.

(** C1 fails on two [design] calls in a row on one instance.  On the
    intercept formula both calls succeed and two random offsets have been
    drawn after the second; on [Formula([x])] the evaluator stored by the
    second call is not the one the first call stored: its placeholder is
    numbered from the second offset. *)
Lemma design_twice_sets_up_twice :
  let run := design mini_sympy sample_random no_evaluation sample_obs None
               true None in
  let s1 := run (Formula___init__ [:: Number 1] "b", new_world) in
  let s2 := run s1.2 in
  let t1 := run (Formula___init__ [:: Term "x"] "b", new_world) in
  let t2 := run t1.2 in
  [/\ s1.1 = Ok (DArray (np_ones 2)) /\ s2.1 = Ok (DArray (np_ones 2)),
      rand_draws s1.2.2 = 1 /\ rand_draws s2.2.2 = 2,
      _f t1.2.1 = Some (lambdify [:: Symbol "__t7__"] [:: Symbol "__t7__"])
    & _f t2.2.1 = Some (lambdify [:: Symbol "__t8__"] [:: Symbol "__t8__"])].
Proof. by vm_compute. Qed.

(** The instance [Formula([x])] after a first call of [design]: its
    coefficient, its evaluator and its dtypes are stored. *)
Definition sample_formula_after_design : Formula :=
  {| _terms := [:: Term "x"]; _counter := 1; char := "b";
     _coefs := Some [:: (Term "x", Beta "b0" 0)];
     _f := Some (lambdify [:: Symbol "__t7__"] [:: Symbol "__t7__"]);
     _dtypes := Some (MkDtypes [::] [:: "x"] [:: "x"]);
     __terms := Some [:: Term "x"] |}.

(** C1, as amended, on a second call: the instance already holds an
    evaluator, and the set-up draws again and stores another. *)
Lemma design_sets_up_witness :
  let s := _setup_design mini_sympy sample_random
             (sample_formula_after_design,
              {| dummy_count := 1; rand_draws := 1 |}) in
  rand_draws s.2.2 = 2 /\ coefs_ok s.2.1.
Proof.
have := @design_sets_up_on_every_call mini_sympy sample_random no_evaluation
  sample_obs None true None sample_formula_after_design
  {| dummy_count := 1; rand_draws := 1 |} (erefl _).
by case=> h1 [h2 _] _ _.
Defined.

(** C4 on the intercept formula and two observations. *)
Lemma design_of_intercept_witness :
  (design mini_sympy sample_random no_evaluation sample_obs None true None
     (Formula___init__ [:: Number 1] "b", new_world)).1
  = Ok (DArray {| shape := [:: 2]; data := [:: 1%Q; 1%Q] |}).
Proof.
have [self' [w' [e _ _ _]]] :=
  @design_of_intercept_is_ones mini_sympy sample_random no_evaluation
    mini_sympy_laws sample_obs None true None
    (Formula___init__ [:: Number 1] "b") new_world (erefl _) (erefl _).
by rewrite e.
Defined.

(** ** Contrast matrices *)

Section ContrastShape.

Local Open Scope ring_scope.

Variable F : fieldType.
Variable pinv : forall n p : nat, 'M[F]_(n, p) -> 'M[F]_(p, n).
Variable full_rank : forall n q : nat, 'M[F]_(n, q) -> forall r : nat, 'M[F]_(n, r).

Lemma raw_contrast_cols (n p c : nat) (L : 'M[F]_(n, c)) (D : 'M[F]_(n, p))
    (P : 'M[F]_(p, n)) :
  raw_contrast L D P = Ok (MkContrast (P *m L)^T).
Proof.
rewrite /raw_contrast; case: eqP => // e.
by rewrite (eq_irrelevance e (erefl n)) castmx_id.
Qed.

Lemma raw_contrast_rows (r n p : nat) (L : 'M[F]_(r, p)) (D : 'M[F]_(n, p))
    (P : 'M[F]_(p, n)) :
  r != n -> raw_contrast L D P = Ok (MkContrast (P *m (D *m L^T))^T).
Proof.
rewrite /raw_contrast; case: eqP => // _ _; case: eqP => // e.
by rewrite (eq_irrelevance e (erefl p)) castmx_id.
Qed.

Lemma raw_contrast_ok (r c n p : nat) (L : 'M[F]_(r, c)) (D : 'M[F]_(n, p))
    (P : 'M[F]_(p, n)) :
  (r == n) || (c == p) -> exists C, raw_contrast L D P = Ok C.
Proof.
rewrite /raw_contrast; case: eqP => [e _|_ /=]; first by eexists.
by case: eqP => // e _; eexists.
Qed.

(** What the function returns for an [L] with the row count of [D], and
    for an [L] with another row count and the column count of [D]. *)
Lemma contrast_of_cols (n p c : nat) (L : 'M[F]_(n, c)) (D : 'M[F]_(n, p))
    (pseudo : option 'M[F]_(p, n)) :
  let P := if pseudo is Some P then P else pinv D in
  let C0 := MkContrast (P *m L)^T in
  let Lp := D *m (c_matrix C0)^T in
  contrast_from_cols_or_rows pinv full_rank L D pseudo =
    Ok (if \rank Lp != c then MkContrast (P *m full_rank Lp (\rank Lp))^T
        else C0).
Proof.
move=> P C0 Lp; rewrite /contrast_from_cols_or_rows eqxx /= -/P.
by rewrite raw_contrast_cols /= -/C0 -/Lp /matrix_rank /np_squeeze; case: ifP.
Qed.



(** C9: [contrast_from_cols_or_rows] raises its shape error exactly when
    neither the row count of [L] is that of [D] nor its column count is
    that of [D]; for an [L] of the shape of [D] no error is raised and
    the function takes the branch for the columns: its raw contrast is
    [np.dot(pseudo, L).T], and what it returns is that matrix, or the
    one recomputed from it when [D . C^T] is rank deficient. *)
Theorem contrast_shape_mismatch_iff (r c n p : nat) (L : 'M[F]_(r, c))
    (D : 'M[F]_(n, p)) (pseudo : option 'M[F]_(p, n)) :
  (contrast_from_cols_or_rows pinv full_rank L D pseudo
     = Raise (ValueError "shape of L and D mismatched")
   <-> (r != n) && (c != p)) /\
  (forall (L' : 'M[F]_(n, p)),
     let P := if pseudo is Some P then P else pinv D in
     let C0 := MkContrast (P *m L')^T in
     let Lp := D *m (c_matrix C0)^T in
     raw_contrast L' D P = Ok C0 /\
     contrast_from_cols_or_rows pinv full_rank L' D pseudo =
       Ok (if \rank Lp != p
           then MkContrast (P *m full_rank Lp (\rank Lp))^T else C0)).
Proof.
split.
- rewrite /contrast_from_cols_or_rows; case sh: ((r != n) && (c != p)); first by [].
  split=> //; move/negbT: sh; rewrite negb_and !negbK => sh.
  set P := if pseudo is Some _ then _ else _.
  have [C ->] := raw_contrast_ok L D P sh.
  by rewrite /=; case: ifP.
- move=> L' P C0 Lp; split; first exact: raw_contrast_cols.
  exact: contrast_of_cols.
Qed.

End ContrastShape.

Section ContrastRank.

Local Open Scope ring_scope.

Variable F : fieldType.
Variable pinv : forall n p : nat, 'M[F]_(n, p) -> 'M[F]_(p, n).
Variable full_rank : forall n q : nat, 'M[F]_(n, q) -> forall r : nat, 'M[F]_(n, r).

(** A pseudo-inverse is a generalised inverse. *)
Hypothesis pinvP : forall (n p : nat) (D : 'M[F]_(n, p)), D *m pinv D *m D = D.

(** Called with the rank of [X], [full_rank] returns a matrix with the
    column space of [X]. *)
Hypothesis full_rankP : forall (n q : nat) (X : 'M[F]_(n, q)),
  ((full_rank X (\rank X))^T :=: X^T)%MS.




End ContrastRank.

Section ContrastInstance.

Local Open Scope ring_scope.

Variable F : fieldType.

Lemma pinvmxP (n p : nat) (D : 'M[F]_(n, p)) : D *m pinvmx D *m D = D.
Proof. exact: mulmxKpV. Qed.

Lemma col_basisP (n q : nat) (X : 'M[F]_(n, q)) :
  ((col_basis X (\rank X))^T :=: X^T)%MS.
Proof.
rewrite /col_basis; case: eqP => // e.
rewrite (eq_irrelevance e (erefl _)) castmx_id.
apply/eqmxP; rewrite andbC.
have le : (X^T <= (col_base X)^T)%MS.
  have -> : X^T = (row_base X)^T *m (col_base X)^T.
    by rewrite -trmx_mul mulmx_base.
  exact: submxMl.
rewrite le /=.
have := mxrank_leqif_sup le.
rewrite !mxrank_tr (eqP (col_base_full X)) => h.
by rewrite -(geq_leqif h).
Qed.

End ContrastInstance.



(** ** Further properties *)

Lemma all2_expr_eqb_refl (s : seq expr) : all2 expr_eqb s s.
Proof. by elim: s => //= x s ->; rewrite expr_eqb_refl. Qed.

(** X1: [A + B] is the formula of the terms of [A] followed by those of
    [B], repetitions kept, and fails on an operand that is no formula;
    the empty formula is neutral on the left of [+] and on the right of
    [-]. *)
Theorem formula_add_concatenates (A B : Formula) :
  [/\ exists F, Formula___add__ A (ObjFormula B) = Ok F /\
                terms F = terms A ++ terms B,
      forall e, Formula___add__ A (ObjExpr e) =
                Raise (ValueError "only Formula objects can be added to a Formula"),
      exists F, Formula___add__ (Formula___init__ [::] "b") (ObjFormula A) = Ok F /\
                Formula___eq__ F A
    & exists F, Formula___sub__ A (ObjFormula (Formula___init__ [::] "b")) = Ok F /\
                Formula___eq__ F A].
Proof.
split=> //.
- by eexists; split.
- by eexists; split; first by []; rewrite Formula_eqE all2_expr_eqb_refl.
- eexists; split; first by [].
  by rewrite Formula_eqE /terms /= filter_predT all2_expr_eqb_refl.
Qed.

(** X2: the coefficients are computed once: on an instance that has
    [_coefs], [self.coefs] returns it and changes nothing, no new dummy
    included; on a new instance it stores a dictionary that maps every
    term to a [Beta]. *)
Theorem coefs_computed_once (d : seq (expr * expr)) (self : Formula)
    (seq_ : seq expr) (char_ : string) (w : world) :
  _getcoefs (set__coefs d self, w) = (Ok d, (set__coefs d self, w)) /\
  exists self' w' d',
    [/\ _getcoefs (Formula___init__ seq_ char_, w) = (Ok d', (self', w')),
        _coefs self' = Some d',
        coefs_ok self'
      & _terms self' = seq_].
Proof.
split; first exact: getcoefs_cached.
have [//|self' [w' [d' [e1 e2 ok [[et _ _ _] _]]]]] :=
  @getcoefs_fresh (Formula___init__ seq_ char_) w.
by exists self', w', d'.
Qed.

(** * Properties of the further functions *)

(** ** Equality, sum and difference of formulas *)
Lemma all2_expr_eqb_sym (s o : seq expr) : all2 expr_eqb s o = all2 expr_eqb o s.
Proof. by elim: s o => [|x s IH] [|y o] //=; rewrite expr_eqb_sym IH. Qed.

Lemma all2_expr_eqb_trans (o s u : seq expr) :
  all2 expr_eqb s o -> all2 expr_eqb o u -> all2 expr_eqb s u.
Proof.
elim: o s u => [|y o IH] [|x s] [|z u] //= /andP[xy so] /andP[yz ou].
by rewrite (expr_eqb_trans xy yz) (IH _ _ so ou).
Qed.

(** X4: [Formula.__eq__] is reflexive, symmetric and transitive: it
    compares the terms with SymPy's [==], which is an equivalence. *)
Theorem formula_eq_is_equivalence (A B C : Formula) :
  [/\ Formula___eq__ A A,
      Formula___eq__ A B = Formula___eq__ B A
    & Formula___eq__ A B -> Formula___eq__ B C -> Formula___eq__ A C].
Proof.
split; rewrite !Formula_eqE; first exact: all2_expr_eqb_refl.
- exact: all2_expr_eqb_sym.
- exact: all2_expr_eqb_trans.
Qed.

Lemma all_py_in_self (s : seq expr) : all (fun t => py_in t s) s.
Proof.
elim: s => //= x s IH; rewrite expr_eqb_refl /=.
by apply: sub_all IH => t ts; rewrite ts orbT.
Qed.

Lemma filter_all_out (T : Type) (p : pred T) (s : seq T) :
  all (predC p) s -> filter p s = [::].
Proof. by elim: s => //= x s IH /andP[/negbTE-> /IH]. Qed.

Lemma sub_filter (A B : Formula) :
  Formula___sub__ A (ObjFormula B) =
  Ok (Formula___init__ [seq t <- terms A | ~~ py_in t (terms B)] "b").
Proof.
rewrite /Formula___sub__; congr (Ok (Formula___init__ _ _)).
by apply: eq_filter => t; rewrite py_in_py_set.
Qed.

(** X5: taking [B] from [A + B] gives what taking [B] from [A] gives;
    taking [B] a second time changes nothing; [A - A] is the empty
    formula. *)
Theorem formula_sub_after_add (A B : Formula) :
  exists AB D : Formula,
    [/\ Formula___add__ A (ObjFormula B) = Ok AB,
        Formula___sub__ A (ObjFormula B) = Ok D,
        Formula___sub__ AB (ObjFormula B) = Ok D,
        Formula___sub__ D (ObjFormula B) = Ok D
      & Formula___sub__ A (ObjFormula A) = Ok (Formula___init__ [::] "b")].
Proof.
do 2![eexists]; split; first by [].
- exact: sub_filter.
- rewrite sub_filter {1}/terms /= filter_cat -[LHS]/(Ok (Formula___init__ _ _)).
  congr (Ok (Formula___init__ _ _)); rewrite -[RHS]cats0; congr (_ ++ _).
  apply: filter_all_out; apply: sub_all (all_py_in_self _) => t /=.
  by rewrite negbK.
- rewrite sub_filter {1}/terms /=; congr (Ok (Formula___init__ _ _)).
  by rewrite -filter_predI; apply: eq_filter => t /=; rewrite andbb.
- rewrite sub_filter; congr (Ok (Formula___init__ _ _)).
  apply: filter_all_out; apply: sub_all (all_py_in_self _) => t /=.
  by rewrite negbK.
Qed.

(** ** [getparams] and [getterms] *)


Lemma count_py_set (x : expr) (s : seq expr) :
  count (expr_eqb x) (py_set s) = py_in x s.
Proof.
elim: s => //= y s IH; case: ifP => ys /=; rewrite IH -/(py_in x s).
- by case xy: (expr_eqb x y) => //=; rewrite (py_in_congr s xy) ys.
- by case xy: (expr_eqb x y) => //=; rewrite (py_in_congr s xy) ys.
Qed.

Lemma count_filter_class (p : pred expr) (x : expr) (s : seq expr) :
  (forall a b, expr_eqb a b -> p a = p b) ->
  count (expr_eqb x) [seq a <- s | p a] = p x * count (expr_eqb x) s.
Proof.
move=> pE; rewrite count_filter.
case px: (p x); rewrite ?mul1n ?mul0n.
- by apply: eq_count => a /=; case xa: (expr_eqb x a) => //=; rewrite -(pE _ _ xa).
- rewrite -(count_pred0 s); apply: eq_count => a /=.
  by case xa: (expr_eqb x a) => //=; rewrite -(pE _ _ xa).
Qed.

Lemma is_term_eqb (a b : expr) : expr_eqb a b -> is_term a = is_term b.
Proof. by case: a; case: b. Qed.

Lemma is_Symbol_eqb (a b : expr) : expr_eqb a b -> is_Symbol a = is_Symbol b.
Proof. by case: a; case: b. Qed.

Lemma string_leb_total : total String.leb.
Proof. by move=> a b; case: (String.leb_total a b) => ->; rewrite ?orbT. Qed.

Lemma sort_key_le_total : total sort_key_le.
Proof.
move=> x y; rewrite /sort_key_le [class_name y == _]eq_sym.
case: ifP => _; first exact: string_leb_total.
rewrite [str_of_symbol y == _]eq_sym; case: ifP => _; first exact: string_leb_total.
exact: leq_total.
Qed.

Lemma all_atoms_spec (expression : seq pyval) :
  all_atoms expression =
    if has is_np_float64 expression
    then Raise (AttributeError "'numpy.float64' object has no attribute 'atoms'")
    else Ok (flatten [seq atoms (sympify t) | t <- expression]).
Proof.
elim: expression => //= -[e|q] es IH //=.
by rewrite IH; case: ifP.
Qed.

(** X6: [getparams] and [getterms] split the atoms of the expressions:
    a symbol is among the parameters exactly when it is an atom that is
    no [Term], among the terms exactly when it is an atom that is a
    [Term]; neither result holds a symbol twice, and both are ordered by
    the sort key.  [getterms] asks each entry for its atoms without
    sympifying it, and raises [AttributeError] when an entry is a NumPy
    float; [getparams] sympifies first and never raises. *)
Theorem getparams_getterms_split (expression : seq pyval) :
  let ats := flatten [seq atoms (sympify t) | t <- expression] in
  [/\ forall x, count (expr_eqb x) (getparams expression) =
                is_Symbol x && ~~ is_term x && py_in x ats,
      sorted sort_key_le (getparams expression)
    & if has is_np_float64 expression
      then getterms expression =
           Raise (AttributeError "'numpy.float64' object has no attribute 'atoms'")
      else exists ts,
           [/\ getterms expression = Ok ts,
               forall x, count (expr_eqb x) ts = is_term x && py_in x ats
             & sorted sort_key_le ts]].
Proof.
move=> ats; split.
- move=> x; rewrite /getparams; cbv zeta; rewrite count_sort count_filter_class.
    by move=> a b ab; rewrite (is_Symbol_eqb ab) (is_term_eqb ab).
  by rewrite count_py_set -/ats; case: (_ && _); rewrite ?mul1n ?mul0n.
- exact: (sort_sorted sort_key_le_total).
- rewrite /getterms all_atoms_spec; case: (has _ _) => //=.
  eexists; split; first by []; cbv zeta.
    move=> x; rewrite count_sort (count_filter_class _ _ is_term_eqb).
    by rewrite count_py_set -/ats; case: (is_term x); rewrite ?mul1n ?mul0n.
  exact: (sort_sorted sort_key_le_total).
Qed.

(** ** The names [_getcoefs] gives *)

Lemma getcoefs_loop_names (ts : seq expr) (self : Formula) (w : world)
    (d0 : seq (expr * expr)) :
  _coefs self = Some d0 ->
  exists self' w' d',
    [/\ _getcoefs_loop ts (self, w) = (Ok tt, (self', w')),
        _coefs self' = Some d',
        _counter self' = _counter self + size ts,
        dummy_count w' = dummy_count w + size ts
      & forall t, dict_get d' t =
          if dict_get d0 t is Some b then Some b
          else if py_in t ts
               then Some (Beta (char self ++ str_of_nat (_counter self + find (expr_eqb t) ts))
                               (dummy_count w + find (expr_eqb t) ts))
               else None].
Proof.
elim: ts self w d0 => [|t0 ts IH] self w d0 e0.
  exists self, w, d0; split; rewrite ?addn0 //.
  by move=> t; case: (dict_get d0 t).
set b := Beta (char self ++ str_of_nat (_counter self)) (dummy_count w).
set self1 := set__counter (_counter self).+1 (set__coefs (setdefault d0 t0 b) self).
set w1 := {| dummy_count := (dummy_count w).+1; rand_draws := rand_draws w |}.
have [//|self' [w' [d' [eq e' ec ed get]]]] := IH self1 w1 (setdefault d0 t0 b).
exists self', w', d'; split.
- by rewrite /= /bind /= e0 /= -/b -/self1 -/w1 eq.
- by [].
- by rewrite ec /= addSnnS.
- by rewrite ed /= addSnnS.
- move=> t; rewrite get dict_get_setdefault.
  case: (dict_get d0 t) => [//|] /=.
  case: (expr_eqb t t0) => /=; first by rewrite !addn0.
  by rewrite !addSnnS.
Qed.

(** X7: on a new formula, [_getcoefs] names the coefficient of a term
    after the position of its first occurrence: the counter advances
    for every entry of [terms], also for one met before, whose [Beta] is
    made and dropped.  Terms of the formula are the only keys. *)
Theorem coefs_named_by_first_occurrence (seq_ : seq expr) (char_ : string)
    (w : world) :
  exists self' w' d,
    [/\ _getcoefs (Formula___init__ seq_ char_, w) = (Ok d, (self', w')),
        _counter self' = size seq_,
        dummy_count w' = dummy_count w + size seq_
      & forall t, dict_get d t =
          if py_in t seq_
          then let i := find (expr_eqb t) seq_ in
               Some (Beta (char_ ++ str_of_nat i) (dummy_count w + i))
          else None].
Proof.
have [//|self' [w' [d [eq e' ec ed get]]]] :=
  @getcoefs_loop_names seq_ (set__coefs [::] (Formula___init__ seq_ char_)) w [::].
exists self', w', d; split=> //.
by rewrite /_getcoefs /bind /= eq /= e'.
Qed.

(** ** The space a contrast spans *)

Section ContrastSpan.

Local Open Scope ring_scope.

Variable F : fieldType.
Variable pinv : forall n p : nat, 'M[F]_(n, p) -> 'M[F]_(p, n).
Variable full_rank : forall n q : nat, 'M[F]_(n, q) -> forall r : nat, 'M[F]_(n, r).
Hypothesis pinvP : forall (n p : nat) (D : 'M[F]_(n, p)), D *m pinv D *m D = D.
Hypothesis full_rankP : forall (n q : nat) (X : 'M[F]_(n, q)),
  ((full_rank X (\rank X))^T :=: X^T)%MS.

Lemma repaired_product (n p q : nat) (D : 'M[F]_(n, p)) (C : 'M[F]_(q, p)) :
  let Lp := D *m C^T in
  D *m ((pinv D *m full_rank Lp (\rank Lp))^T)^T = full_rank Lp (\rank Lp).
Proof.
move=> Lp; rewrite trmxK.
have sub : ((full_rank Lp (\rank Lp))^T <= D^T)%MS.
  by rewrite (full_rankP Lp) /Lp trmx_mul trmxK; exact: submxMl.
case/submxP: sub => Y eY.
have eB : full_rank Lp (\rank Lp) = D *m Y^T.
  by rewrite -[LHS]trmxK eY trmx_mul trmxK.
by rewrite {1}eB !mulmxA pinvP -eB.
Qed.

Lemma contrast_spans_raw (r c n p : nat) (L : 'M[F]_(r, c)) (D : 'M[F]_(n, p))
    (C0 : contrast F p) :
  raw_contrast L D (pinv D) = Ok C0 ->
  exists C : contrast F p,
    contrast_from_cols_or_rows pinv full_rank L D None = Ok C /\
    ((D *m (c_matrix C)^T)^T :=: (D *m (c_matrix C0)^T)^T)%MS.
Proof.
move=> e0; rewrite /contrast_from_cols_or_rows.
case sh: ((r != n) && (c != p)).
  move: e0; rewrite /raw_contrast; case/andP: sh => /negbTE rn /negbTE cp.
  by case: eqP rn => // _ _; case: eqP cp.
rewrite e0 /= /matrix_rank /np_squeeze.
case: ifPn => _; last by exists C0.
eexists; split; first by [].
by rewrite /= repaired_product; exact: full_rankP.
Qed.

(** X8: no error is raised and the contrast [C] returned spans what the
    docstring names.  For [L] with the row count of [D], the column
    space of [D . C^T] is that of the projection [D . pinv(D) . L], and
    is that of [L] when the columns of [L] lie in the column space of
    [D]; for [L] with another row count and the column count of [D], it
    is the column space of [D . L^T]. *)
Theorem contrast_spans_projection (n p : nat) (D : 'M[F]_(n, p)) :
  (forall (c : nat) (L : 'M[F]_(n, c)),
     exists C : contrast F p,
       [/\ contrast_from_cols_or_rows pinv full_rank L D None = Ok C,
           ((D *m (c_matrix C)^T)^T :=: (D *m pinv D *m L)^T)%MS
         & (L^T <= D^T)%MS -> ((D *m (c_matrix C)^T)^T :=: L^T)%MS]) /\
  (forall (r : nat) (L : 'M[F]_(r, p)), r != n ->
     exists C : contrast F p,
       contrast_from_cols_or_rows pinv full_rank L D None = Ok C /\
       ((D *m (c_matrix C)^T)^T :=: (D *m L^T)^T)%MS).
Proof.
split=> [c L|r L rn].
- have [C [e sp]] := contrast_spans_raw (raw_contrast_cols L D (pinv D)).
  move: sp; rewrite /= trmxK mulmxA => sp.
  exists C; split=> // /submxP[Y eY].
  have eL : L = D *m Y^T by rewrite -[LHS]trmxK eY trmx_mul trmxK.
  by move: sp; rewrite {1}eL mulmxA pinvP -eL.
- have [C [e sp]] := contrast_spans_raw (raw_contrast_rows L D (pinv D) rn).
  exists C; split=> //; move: sp; by rewrite /= trmxK !mulmxA pinvP.
Qed.

End ContrastSpan.

(** X8 over the rationals, with MathComp's pseudo-inverse and column
    basis, on [L = D = 1]. *)
Lemma contrast_spans_projection_witness :
  exists C : contrast rat 1,
    contrast_from_cols_or_rows (@pinvmx rat) (@col_basis rat)
      (1%:M : 'M[rat]_1) (1%:M : 'M[rat]_1) None = Ok C /\
    (((1%:M : 'M[rat]_1) *m (c_matrix C)^T)^T :=: (1%:M : 'M[rat]_1)^T)%MS%R.
Proof.
have [h _] := @contrast_spans_projection rat (@pinvmx rat) (@col_basis rat)
  (@pinvmxP rat) (@col_basisP rat) 1 1 1%:M%R.
have [C [e _ sp]] := h 1 1%:M%R.
by exists C; split=> //; apply: sp.
Defined.

(** ** [np.unique] and [Factor.fromcol] *)

Section UniqueFacts.

Variable T : Type.
Variables le eq lt : rel T.

Hypothesis le_total : total le.
Hypothesis le_neq_lt : forall a b, le a b -> ~~ eq a b -> lt a b.
Hypothesis eq_lt : forall a b c, eq a b -> lt b c -> lt a c.



Lemma has_drop_repeats (p : pred T) (x : T) (s : seq T) :
  (forall a b, eq a b -> p a = p b) ->
  p x || has p (drop_repeats eq x s) = p x || has p s.
Proof.
move=> pE; elim: s x => //= y s IH x.
case e: (eq x y) => /=; last by rewrite IH.
by rewrite (pE _ _ e) IH orbA orbb.
Qed.

Lemma has_np_unique_seq (p : pred T) (s : seq T) :
  (forall a b, eq a b -> p a = p b) ->
  has p (np_unique_seq le eq s) = has p s.
Proof.
move=> pE; rewrite [RHS]has_count -(count_sort le) -has_count /np_unique_seq.
by case: (sort le s) => //= x s'; exact: has_drop_repeats.
Qed.

Lemma all_np_unique_seq (p : pred T) (s : seq T) :
  (forall a b, eq a b -> p a = p b) ->
  all p (np_unique_seq le eq s) = all p s.
Proof.
move=> pE; rewrite -[LHS]negbK -[RHS]negbK -!has_predC.
by rewrite has_np_unique_seq // => a b ab /=; rewrite (pE _ _ ab).
Qed.

End UniqueFacts.












(** Two floats [np.unique] takes for one value are two NaN, the same
    infinity or two finite values that are equal. *)
Lemma float_sameE (a b : float64) :
  float_same a b =
  match a, b with
  | Finite x, Finite y => Qeq_bool x y
  | Inf s, Inf t => s == t
  | NaN, NaN => true
  | _, _ => false
  end.
Proof.
case: a b => [x|[]|] [y|[]|] //=; rewrite /float_same /=.
apply/andP/idP => [[/Qle_bool_iff xy /Qle_bool_iff yx]|/Qeq_bool_iff e].
  by apply/Qeq_bool_iff; exact: Qle_antisym.
by split; apply/Qle_bool_iff; apply/Qle_lteq; right=> //; exact: Qeq_sym.
Qed.




Lemma integral_same (a b : float64) :
  float_same a b -> integral a = integral b.
Proof.
have half u v : Qeq_bool u v -> integral (Finite u) -> integral (Finite v).
  rewrite /integral /= => /Qeq_bool_iff uv /Qeq_bool_iff iu.
  have e : (v == inject_Z (round_half_even u))%Q.
    by apply: Qeq_trans iu; exact: Qeq_sym.
  by rewrite (round_half_even_integral e).1; apply/Qeq_bool_iff.
rewrite float_sameE; case: a b => [x|s|] [y|t|] //=; last first.
  by rewrite /integral /= !eqxx.
move=> xy; apply/idP/idP; first exact: half.
by apply: half; rewrite Qeq_boolC.
Qed.



Lemma level_eqbP (a b : level) : reflect (a = b) (level_eqb a b).
Proof.
case: a b => [x|x] [y|y] /=; try by constructor.
- by case: (Z.eqb_spec x y) => h; constructor; congruence.
- by case: eqP => h; constructor; congruence.
Qed.



Lemma all_integral_np_unique (col : levels_array) :
  all_integral (np_unique col) = all_integral col.
Proof.
case: col => [xs|xs|xs|xs|s] //=; apply: all_np_unique_seq.
exact: integral_same.
Qed.

Lemma fromcol_spec (col : levels_array) (name_ : string) :
  Factor_fromcol col name_ =
    if ndim col != 1 then
      Raise (ValueError "expecting an array that can be thought of as a column or field of a recarray")
    else if ~~ all_integral col then
      Raise (ValueError "levels must be strings or ints")
    else
      let n := if name_ == "" then "factor" else name_ in
      let ls := cast_levels (np_unique col) in
      Ok (MkFactor (Formula___init__ [seq FactorTerm n l | l <- ls] "b") ls n).
Proof.
rewrite /Factor_fromcol /Factor___init__ -(all_integral_np_unique col).
by case: col => [xs|xs|xs|xs|s] //=; case: ifP.
Qed.



(** Outside the range of [np.int_] the levels collide: the column
    [1e19, 2e19] gives one level twice. *)
Example fromcol_out_of_range :
  exists f : Factor,
    Factor_fromcol (ArrF [:: Finite (inject_Z (10 ^ 19));
                             Finite (inject_Z (2 * 10 ^ 19))]) "x" = Ok f /\
    levels f = [:: LInt int_min; LInt int_min].
Proof. by eexists; split; [vm_compute; reflexivity | vm_compute]. Qed.

(** ** Decimal names *)

Lemma str_of_Z_inj : injective str_of_Z.
Proof.
move=> a b; rewrite /str_of_Z => e; apply: DecimalZ.to_int_inj.
have nn z : Z.to_int z <> Decimal.Pos Decimal.Nil /\
            Z.to_int z <> Decimal.Neg Decimal.Nil.
  by case: z => [|p|p] /=; split=> // -[] /DecimalPos.Unsigned.to_uint_nonnil.
have [a1 a2] := nn a; have [b1 b2] := nn b.
have := NilZero.isi _ a1 a2; rewrite e (NilZero.isi _ b1 b2).
by case.
Qed.

Lemma str_of_nat_inj : injective str_of_nat.
Proof. by move=> a b /str_of_Z_inj /Nat2Z.inj. Qed.

Lemma append_inj (p a b : string) : (p ++ a = p ++ b)%string -> a = b.
Proof. by elim: p => //= c p IH [] /IH. Qed.

Lemma _to_str_inj (a b : level) :
  level_is_int a = level_is_int b -> _to_str a = _to_str b -> a = b.
Proof.
by case: a b => [x|x] [y|y] //= _; [move/str_of_Z_inj-> | move->].
Qed.

Lemma cast_levels_kind (a : levels_array) :
  exists b, all (fun l => level_is_int l == b) (cast_levels a).
Proof.
by case: a => [xs|xs|xs|xs|s]; [exists true|exists true|exists false|
  exists false|exists false]; rewrite /= all_map /preim /= all_predT.
Qed.

(** ** [Formula.__getitem__] and [Factor.get_term] *)

Section PrintingFacts.

Variable str_compound : expr -> string.

(** X10: [f[key]] is the first term of [f] whose [str] is [key], and
    raises [ValueError] exactly when no term has that [str]. *)
Theorem getitem_first_term_named (self : Formula) (key : string) :
  match Formula___getitem__ str_compound self key with
  | Ok t =>
      exists i,
        [/\ i < size (terms self), t = nth (Number 0) (terms self) i,
            py_str str_compound t = key
          & forall j, j < i -> py_str str_compound (nth (Number 0) (terms self) j) != key]
  | Raise e =>
      e = ValueError ("term " ++ key ++ " not found") /\
      all (fun t => py_str str_compound t != key) (terms self)
  end.
Proof.
rewrite /Formula___getitem__; cbv zeta.
set names := [seq _ | t <- terms self].
have sz : size names = size (terms self) by rewrite size_map.
case: ifPn => [kin|kout].
  exists (index key names); split=> //.
  - by rewrite -sz index_mem.
  - by rewrite -(nth_map _ EmptyString) -?sz ?index_mem // nth_index.
  - move=> j lt_j; have lt_s : j < size names.
      by apply: ltn_trans lt_j _; rewrite index_mem.
    rewrite -(nth_map _ EmptyString) -?sz // -/names.
    by have /= := before_find EmptyString lt_j; rewrite eq_sym => ->.
split=> //; rewrite -(all_map (py_str str_compound) (fun n => n != key)) -/names.
by apply/allP => n nin; apply: contraNneq kout => <-.
Qed.

(** X11: [Factor.get_term] on a factor as [Factor.__init__] leaves it: the
    term of a level of the factor is the factor term of that level, and
    any other level raises [ValueError]. *)
Theorem get_term_round_trip (name_ char_ : string) (levels_ : levels_array)
    (f : Factor) (l : level) :
  Factor___init__ name_ levels_ char_ = Ok f ->
  Factor_get_term str_compound f l =
    if has (level_eqb l) (levels f) then Ok (FactorTerm name_ l)
    else Raise (ValueError "level not found").
Proof.
rewrite /Factor___init__; cbv zeta; case: ifP => // _ [<-] /=.
set ls := cast_levels _.
rewrite /Factor_get_term /=; case hl: (has (level_eqb l) ls) => //=.
rewrite /Formula___getitem__ /terms /= -map_comp.
set names := [seq _ | x <- ls]; set key := (name_ ++ _)%string.
have kin : key \in names.
  rewrite -has_pred1 has_map; apply: sub_has hl => x /level_eqbP <- /=.
  exact: eqxx.
have lt_i : index key names < size ls.
  by rewrite -index_mem /names size_map in kin.
rewrite kin (nth_map l) //; congr (Ok (FactorTerm _ _)).
have := nth_index EmptyString kin; rewrite (nth_map l) //= /key.
rewrite /FactorTerm_name => /append_inj /(@append_inj "_").
have [b /all_nthP hb] := cast_levels_kind (if (ndim levels_ == 0) && kind_in_SOU levels_
      then np_asarray_list levels_ else levels_).
apply: _to_str_inj.
have /(@has_nthP _ _ _ l) [j lt_j /level_eqbP ej] := hl.
by rewrite (eqP (hb l _ lt_i)) ej (eqP (hb l _ lt_j)).
Qed.

End PrintingFacts.

(** X11 on [Factor("g", [1, 2])] and the level [2]. *)
Lemma get_term_round_trip_witness :
  Factor_get_term str_of_symbol
    (MkFactor (Formula___init__
                 [:: FactorTerm "g" (LInt 1); FactorTerm "g" (LInt 2)] "b")
              [:: LInt 1; LInt 2] "g")
    (LInt 2)
  = Ok (FactorTerm "g" (LInt 2)).
Proof.
exact: (@get_term_round_trip str_of_symbol "g" "b" (ArrI [:: 1; 2]%Z) _
          (LInt 2) (erefl _)).
Defined.

(** ** [natural_spline] *)

Lemma count_map_inj (T : Type) (f : nat -> T) (e : rel T) (x : T) (s : seq nat) :
  (forall i j, e (f i) (f j) -> i = j) -> (forall a b c, e a b -> e a c -> e b c) ->
  uniq s -> count (e x) [seq f i | i <- s] <= 1.
Proof.
move=> inj tr; elim: s => //= i s IH /andP[nis us].
case exi: (e x (f i)); last exact: IH.
rewrite add1n ltnS leqn0 -[_ == 0]negbK -lt0n -has_count has_map.
apply/hasPn => j js /=; apply: contraNN nis => exj.
by rewrite (inj _ _ (tr _ _ _ exi exj)).
Qed.

(** X12: [natural_spline] returns the functions [ns_k(t)] for [k] from 1
    to [order + len(knots)], from 0 with the intercept: the numbering
    of the knots continues that of the powers; there are
    [order + len(knots)] terms, one more with the intercept, and no two
    are equal. *)
Theorem natural_spline_terms (t : expr) (knots : seq Q) (order : nat)
    (intercept : bool) :
  let F := natural_spline t knots order intercept in
  [/\ terms F = [seq Func ("ns_" ++ str_of_nat k) t
                | k <- iota (~~ intercept) (order + size knots + intercept)],
      size (terms F) = order + size knots + intercept
    & forall x, count (expr_eqb x) (terms F) <= 1].
Proof.
move=> F.
have eF : terms F = [seq Func ("ns_" ++ str_of_nat k) t
                    | k <- iota (~~ intercept) (order + size knots + intercept)].
  rewrite /F /natural_spline /terms /= {F}.
  have -> : [seq Func ("ns_" ++ str_of_nat (j + order + 1)) t | j <- iota 0 (size knots)] =
            [seq Func ("ns_" ++ str_of_nat k) t | k <- iota order.+1 (size knots)].
    rewrite -[order.+1]addn0 iotaDl -map_comp; apply: eq_map => j /=.
    by rewrite -addnA addn1 addnC.
  rewrite -/(map _ (0 :: _)) -/(iota 0 order.+1) -map_cat -[X in iota X (size _)]add0n.
  by rewrite -iotaD; case: intercept => /=; rewrite ?addn1 ?addn0.
split=> //; first by rewrite eF size_map size_iota.
move=> x; rewrite eF; apply: count_map_inj (iota_uniq _ _).
- move=> i j /=; rewrite /= => /andP[/eqP e _].
  by apply: str_of_nat_inj; apply: (@append_inj "ns_").
- by move=> a b c ab; rewrite (expr_eqb_congr _ ab).
Qed.

(** ** [Formula.__mul__] *)

Section ProductFacts.

Variable E : SymPy.
Variable key_le : rel expr.

Lemma has_flatten_map (T U : Type) (p : pred U) (f : T -> seq U) (s : seq T) :
  has p (flatten [seq f x | x <- s]) = has (fun x => has p (f x)) s.
Proof. by elim: s => //= x s IH; rewrite has_cat IH. Qed.

Lemma py_mul_not_term (a b : expr) : ~~ is_term a -> py_mul E a b = sym_mul E a b.
Proof. by case: a. Qed.

(** X13: [Formula.__mul__] raises [ValueError] on an operand that is no
    formula; a factor times a formula equal to it is the factor itself;
    any other product is a formula in which no expression occurs twice
    and whose terms are the products SymPy forms of a term of [self] and
    a term of [other], a [Term] written first: the product of
    [FactorTerm.__mul__], which squares to the term itself, is never
    formed. *)
Theorem formula_mul_products (self : formula_obj) (other : Formula) :
  (forall e, Formula___mul__ E key_le self (ObjExpr e) =
             Raise (ValueError "only two Formulas can be multiplied together")) /\
  if is_factor self && Formula___eq__ (formula_part self) other
  then Formula___mul__ E key_le self (ObjFormula other) = Ok self
  else exists F,
    Formula___mul__ E key_le self (ObjFormula other) = Ok (AFormula F) /\
    forall x, count (expr_eqb x) (terms F) =
      has (fun s => has (fun o =>
             expr_eqb x (if is_term s || ~~ is_term o then sym_mul E s o
                         else sym_mul E o s))
           (terms other)) (terms (formula_part self)).
Proof.
split=> //; rewrite /Formula___mul__; case: (_ && _) => //.
eexists; split; first by [].
move=> x; rewrite {1}/terms /= count_sort count_py_set /py_in has_flatten_map.
congr (nat_of_bool _); apply: eq_has => s; rewrite has_map; apply: eq_has => o /=.
rewrite /Term___mul__; case ts: (is_term s) => //=.
by case: (is_term o) => //=; rewrite py_mul_not_term ?ts.
Qed.

End ProductFacts.

(** ** [Formula.fromrec] *)

Lemma dict_setitem_new (f : seq (string * Formula)) (n : string) (v : Formula) :
  n \notin [seq nv.1 | nv <- f] -> dict_setitem f n v = rcons f (n, v).
Proof.
elim: f => //= -[k x] f IH; rewrite inE negb_or eq_sym => /andP[/negbTE-> nf].
by rewrite IH.
Qed.

Lemma fromrec_fields_spec (rec : table) (f : seq (string * Formula)) :
  uniq ([seq nv.1 | nv <- f] ++ [seq nc.1 | nc <- rec]) ->
  all (fun nc => ndim nc.2 == 1) rec ->
  exists g, [/\ fromrec_fields rec f = Ok (f ++ g),
                [seq nv.1 | nv <- g] = [seq nc.1 | nc <- rec]
              & [seq terms nv.2 | nv <- g] = [seq field_terms nc | nc <- rec]].
Proof.
elim: rec f => [|[n col] rec IH] f /=; first by exists [::]; rewrite cats0.
rewrite cat_uniq /= negb_or -!andbA => /and5P[uf nf hf nr ur] /andP[nd ad].
set v := if kind_in_SOU col then _ else _.
have [v0 [ev tv]] : exists v0, v = Ok v0 /\ terms v0 = field_terms (n, col).
  rewrite /v /field_terms /=; case k: (kind_in_SOU col); last by eexists.
  rewrite fromcol_spec nd /=.
  have -> : all_integral col by case: (col) k.
  by eexists.
rewrite ev /= (dict_setitem_new _ nf).
have [|//|g [eg ng tg]] := IH (rcons f (n, v0)).
  by rewrite map_rcons -cats1 -catA /= cat_uniq /= negb_or uf nf hf nr ur.
exists ((n, v0) :: g); split; rewrite /= ?ng ?tg ?tv //.
by rewrite eg cat_rcons.
Qed.

Lemma fromrec_drop_spec (f : seq (string * Formula)) (drop : seq string) :
  if all (fun d => d \in [seq nv.1 | nv <- f]) drop && uniq drop
  then fromrec_drop f drop = Ok [seq nv <- f | nv.1 \notin drop]
  else exists2 d, d \in drop & fromrec_drop f drop = Raise (KeyError d).
Proof.
elim: drop f => [|d drop IH] f /=.
  by rewrite (@eq_filter _ _ predT) ?filter_predT.
rewrite /dict_delitem; case df: (d \in _) => /=; last first.
  by exists d; rewrite ?mem_head.
have := IH [seq nv <- f | nv.1 != d].
have -> : all (fun d0 => d0 \in [seq nv.1 | nv <- f & nv.1 != d]) drop =
          all (fun d0 => d0 \in [seq nv.1 | nv <- f]) drop && (d \notin drop).
  elim: (drop) => //= x s ->; rewrite inE negb_or -!andbA.
  rewrite -(@filter_map _ _ (fun nv : string * Formula => nv.1) (fun n => n != d)).
  rewrite mem_filter /= [d == x]eq_sym.
  by case: (x == d); rewrite /= ?andbF //; do !bool_congr.
rewrite -andbA; case: ifP => _.
  move=> ->; congr (Ok _); rewrite -filter_predI; apply: eq_filter => nv /=.
  by rewrite inE negb_or andbC.
by case=> x xd ->; exists x; rewrite // inE xd orbT.
Qed.

Lemma py_sum_spec (elements : seq Formula) (start : Formula) :
  exists F, py_sum elements start = Ok F /\
            terms F = terms start ++ flatten [seq terms e | e <- elements].
Proof.
elim: elements start => [|e es IH] start /=; first by exists start; rewrite cats0.
have [F [eF tF]] := IH (Formula___init__ (terms start ++ terms e) "b").
by exists F; rewrite eF tF catA.
Qed.

Lemma map_filter_keys (A B U : Type) (p : pred string) (ka : A -> string)
    (kb : B -> string) (ta : A -> U) (tb : B -> U) (a : seq A) (b : seq B) :
  [seq ka x | x <- a] = [seq kb y | y <- b] ->
  [seq ta x | x <- a] = [seq tb y | y <- b] ->
  [seq ta x | x <- a & p (ka x)] = [seq tb y | y <- b & p (kb y)].
Proof.
elim: a b => [|x a IH] [|y b] //= [ek /IH h] [et /h e].
by rewrite ek; case: (p _); rewrite /= ?et e.
Qed.

(** X14: [Formula.fromrec] on a record array with distinct field names and
    columns of one dimension: a name in [drop] that is no field, or a
    second time in [drop], raises [KeyError]; else the formula holds, in
    the order of the fields, the [Term] of each numeric field and the
    factor terms of the distinct values of each field of strings, for
    the fields not dropped and, when [keep] is not empty, named in
    [keep]; a name in [keep] that is no field is passed over. *)
Theorem fromrec_terms_by_field (rec : table) (keep drop : seq string) :
  uniq [seq nc.1 | nc <- rec] ->
  all (fun nc => ndim nc.2 == 1) rec ->
  if all (fun d => d \in [seq nc.1 | nc <- rec]) drop && uniq drop
  then exists F,
         Formula_fromrec rec keep drop = Ok F /\
         terms F = flatten [seq field_terms nc
                           | nc <- rec & (nc.1 \notin drop) &&
                                         (nilp keep || (nc.1 \in keep))]
  else exists2 d, d \in drop & Formula_fromrec rec keep drop = Raise (KeyError d).
Proof.
move=> un nd; have [//|//|g [eg kg tg]] := @fromrec_fields_spec rec [::].
rewrite /Formula_fromrec eg /= -kg; have := fromrec_drop_spec g drop.
case: ifP => _; last by case=> d dd ->; exists d.
move=> -> /=; set els := if keep is _ :: _ then _ else _.
have [F [eF tF]] := py_sum_spec els (Formula___init__ [::] "b").
exists F; split=> //; rewrite tF /=; congr flatten.
have -> : [seq terms e | e <- els] =
          [seq terms nv.2 | nv <- g & (nv.1 \notin drop) && (nilp keep || (nv.1 \in keep))].
  rewrite /els; case: (keep) => [|k ks] /=.
    by rewrite -map_comp; congr map; apply: eq_filter => nv; rewrite andbT.
  by rewrite -map_comp -filter_predI; congr map; apply: eq_filter => nv /=; rewrite andbC.
exact: (@map_filter_keys _ _ _ (fun n => (n \notin drop) && (nilp keep || (n \in keep)))).
Qed.

(** X14 on a record array with a float field [x] and a field [y] of
    byte strings. *)
Lemma fromrec_terms_witness :
  exists F,
    Formula_fromrec [:: ("x", ArrF [:: Finite 3; Finite 4]);
                        ("y", ArrS [:: "b"; "a"; "b"])]
                    [::] [::] = Ok F /\
    terms F = [:: Term "x"; FactorTerm "y" (LStr "a"); FactorTerm "y" (LStr "b")].
Proof.
exact: (@fromrec_terms_by_field
          [:: ("x", ArrF [:: Finite 3; Finite 4]); ("y", ArrS [:: "b"; "a"; "b"])]
          [::] [::] (erefl _) (erefl _)).
Defined.

(** ** The mean of a new formula *)

Lemma eq_map_all (T U : Type) (p : pred T) (f g : T -> U) (s : seq T) :
  (forall x, p x -> f x = g x) -> all p s -> [seq f x | x <- s] = [seq g x | x <- s].
Proof. by move=> h; elim: s => //= x s IH /andP[/h-> /IH->]. Qed.

Section MeanFacts.

Variable E : SymPy.

Lemma getcoefs_loop_keeps (ts : seq expr) (self : Formula) (w : world) :
  let s := (_getcoefs_loop ts (self, w)).2 in
  _terms s.1 = _terms self /\ char s.1 = char self.
Proof.
elim: ts self w => [|t ts IH] self w //=.
rewrite /bind /=.
set self1 := set__counter _ _; set w1 := MkWorld _ _.
by have /= [-> ->] := IH self1 w1.
Qed.

(** X15: the mean of a new formula is the sum, from the left, of the
    products of each term with the coefficient named after its first
    occurrence; the mean of the empty formula is the float [0.0]
    NumPy returns for the sum of an empty array. *)
Theorem mean_of_new_formula (seq_ : seq expr) (char_ : string) (w : world) :
  (_getmean E (Formula___init__ seq_ char_, w)).1 =
  Ok (np_sum E
        [seq sym_mul E (Beta (char_ ++ str_of_nat (find (expr_eqb t) seq_))
                             (dummy_count w + find (expr_eqb t) seq_)) t
        | t <- seq_]).
Proof.
case es: seq_ => [|t0 ts] //; rewrite -es.
set F0 := Formula___init__ seq_ char_.
have [//|self' [w' [d [eq e' ec ed get]]]] :=
  @getcoefs_loop_names seq_ (set__coefs [::] F0) w [::].
have [/= et _] := getcoefs_loop_keeps seq_ (set__coefs [::] F0) w.
rewrite eq /= in et.
have egc : _getcoefs (F0, w) = (Ok d, (self', w')).
  by rewrite /_getcoefs /bind /= eq /= e'.
have inq t : py_in t seq_ -> dict_get d t =
    Some (Beta (char_ ++ str_of_nat (find (expr_eqb t) seq_))
               (dummy_count w + find (expr_eqb t) seq_)).
  by move=> h; rewrite get /= h.
have fb : all (found_Beta d) seq_.
  apply: sub_all (all_py_in_self seq_) => t /inq.
  by rewrite /found_Beta => ->.
rewrite /_getmean /bind /= {1}es /= /bind {1}/coefs_getitem /bind egc.
have hin : py_in t0 seq_ by rewrite es /= expr_eqb_refl.
rewrite (inq _ hin) /=.
have fbs : all (found_Beta d) ts by move: fb; rewrite es /= => /andP[].
rewrite (mapM_coefs_cached _ e' fbs) /= /terms et.
have -> : Beta (char_ ++ str_of_nat (find (expr_eqb t0) seq_))
             (dummy_count w + find (expr_eqb t0) seq_)
           :: [seq odflt (Number 0) (dict_get d t) | t <- ts] =
          [seq odflt (Number 0) (dict_get d t) | t <- seq_].
  by rewrite [in RHS]es /= (inq _ hin).
rewrite zip_map_self -map_comp; congr (Ok (np_sum _ _)).
by apply: eq_map_all (all_py_in_self seq_) => t /inq /= -> /=.
Qed.

End MeanFacts.

(** ** The product with the intercept formula *)

Section ProductIntercept.

Variable E : SymPy.
Variable key_le : rel expr.
Hypothesis laws : SymPyLaws E.

Lemma all2_eqb_singleton (s : seq expr) (y x : expr) :
  all2 expr_eqb s [:: y] -> count (expr_eqb x) s = py_in x s.
Proof. by case: s => [|t [|u s]] //=; rewrite ?andbF // => _; rewrite addn0 orbF. Qed.

(** X16: the intercept formula [I] is neutral on the right of the
    product, up to order and repetition: [f * I] holds exactly the
    terms of [f], each once. *)
Theorem formula_mul_intercept (self : formula_obj) :
  exists F,
    Formula___mul__ E key_le self (ObjFormula (Formula___init__ [:: Number 1] "b"))
      = Ok F /\
    forall x, count (expr_eqb x) (terms (formula_part F)) =
              py_in x (terms (formula_part self)).
Proof.
rewrite /Formula___mul__; case: ifP => [/andP[_]|_].
  rewrite Formula_eqE => /all2_eqb_singleton h.
  by exists self; split=> // x; rewrite -h.
eexists; split; first by [].
move=> x; rewrite /= {1}/terms /= count_sort count_py_set /py_in has_flatten_map.
congr (nat_of_bool _); apply: eq_has => s /=; rewrite orbF.
rewrite /Term___mul__; case ts: (is_term s); rewrite ?mul_one //.
by rewrite py_mul_not_term ?ts // mul_one.
Qed.

End ProductIntercept.

(** X16 on [Formula([x]) * I] with the small instance of SymPy. *)
Lemma formula_mul_intercept_witness :
  exists F,
    Formula___mul__ mini_sympy sort_key_le
      (AFormula (Formula___init__ [:: Term "x"] "b"))
      (ObjFormula (Formula___init__ [:: Number 1] "b")) = Ok F /\
    forall x, count (expr_eqb x) (terms (formula_part F)) =
              py_in x [:: Term "x"].
Proof.
exact: (@formula_mul_intercept mini_sympy sort_key_le mini_sympy_laws
          (AFormula (Formula___init__ [:: Term "x"] "b"))).
Defined.
